(** * DOM event patching of the mini runtime: invoker cache and tick clock

    A shallow embedding of the runtime-dom event module ([patchEvent],
    [getNow], [parseName], [createInvoker], [addEventListener],
    [removeEventListener], [patchStopImmediatePropagation]) together with the
    collaborators it imports, and of the proxy factory of the reactivity
    package.

    JavaScript objects with identity (invokers, elements' listener lists,
    proxies) live in explicit stores and are named by references; numbers
    that hold timestamps are integers ([Z], as [Date.now] produces them),
    with [0] being the falsy number; [undefined] is [None]; strings are
    sequences of one-byte characters, which covers the names events have.
    The cache of an element is a plain object, so a read of it falls back
    on [Object.prototype] where the object has no entry of its own.
    User functions run synchronously and either return or throw; they work
    on the event they are given and on the application state, and what a
    user function might do by calling back into this module is not
    covered. *)

From Stdlib Require Import ZArith Ascii String.
From stdpp Require Import base option list strings gmap.

Local Open Scope string_scope.
Local Open Scope Z_scope.
Local Open Scope list_scope.

(** ** Strings and the helpers imported from the shared package *)

Module Shared.

(** [s.slice(start)] for a non-negative [start]. *)
Fixpoint slice (start : nat) (s : string) : string :=
  match start, s with
  | O, _ => s
  | S n, String _ t => slice n t
  | S _, EmptyString => EmptyString
  end.

(** [s[i]]: the character at index [i], [None] for [undefined]. *)
Definition char_at (s : string) (i : nat) : option ascii := String.get i s.

Definition code (c : ascii) : nat := nat_of_ascii c.

Definition is_upper (c : ascii) : bool :=
  (Nat.leb 65 (code c) && Nat.leb (code c) 90)%bool.

Definition is_lower (c : ascii) : bool :=
  (Nat.leb 97 (code c) && Nat.leb (code c) 122)%bool.

Definition is_digit (c : ascii) : bool :=
  (Nat.leb 48 (code c) && Nat.leb (code c) 57)%bool.

(** The regular expression class [\w]. *)
Definition is_word (c : ascii) : bool :=
  (is_upper c || is_lower c || is_digit c || Nat.eqb (code c) 95)%bool.

Definition lower_char (c : ascii) : ascii :=
  if is_upper c then ascii_of_nat (code c + 32) else c.

(** [s.toLowerCase()] on the characters of the basic Latin block. *)
Fixpoint toLowerCase (s : string) : string :=
  match s with
  | EmptyString => EmptyString
  | String c t => String (lower_char c) (toLowerCase t)
  end.

(** [s.replace(/\B([A-Z])/g, "-$1")]: a hyphen goes in front of every
    capital that does not sit at a word boundary, that is, whose
    predecessor exists and is a word character.  [prev_word] tells whether
    the character just before [s] is a word character. *)
Fixpoint hyphen_capitals (prev_word : bool) (s : string) : string :=
  match s with
  | EmptyString => EmptyString
  | String c t =>
      let rest := String c (hyphen_capitals (is_word c) t) in
      if (prev_word && is_upper c)%bool then String "-" rest else rest
  end.

(** Modelled from the spec: [hyphenate] of the shared package is not part
    of the sources at hand.  The spec gives its contract, "camelCase to
    hyphen-lowercase converter" with "Click" becoming "click" and
    "DoubleClick" becoming "double-click", and the header of the event
    module names the regular expression it is built on, [/\B([A-Z])/g]. *)
Definition hyphenate (str : string) : string :=
  toLowerCase (hyphen_capitals false str).

End Shared.

(** ** Event name parsing *)

Module EventName.
Import Shared.

Record EventListenerOptions := { capture : bool }.

Section WithHyphenate.
Variable hyphenate : string -> string.

(** [parseName] with the imported converter left open. *)
Definition parseName_with (name : string)
  : string * option EventListenerOptions :=
  let options : option EventListenerOptions := None in
  let event :=
    if bool_decide (char_at name 2 = Some ":"%char)
    then slice 3 name
    else hyphenate (slice 2 name) in
  (event, options).
End WithHyphenate.

Definition parseName : string -> string * option EventListenerOptions :=
  parseName_with Shared.hyphenate.

End EventName.

(** ** Completions

    A call either returns or throws; in both cases the state it has reached
    is there, since mutations done before a throw persist. *)

Inductive Completion (X S : Type) : Type :=
  | Normal (s : S)
  | Abrupt (x : X) (s : S).
Arguments Normal {X S} s.
Arguments Abrupt {X S} x s.

Definition state_of {X S} (c : Completion X S) : S :=
  match c with Normal s => s | Abrupt _ s => s end.

(** ** The event module *)

Module Events.
Import Shared EventName.

(** User functions are reference values: a handler is named by its
    identity, and the host says what running it does. *)
Abbreviation Handler := nat (only parsing).

(** A callable: a user function, or the arrow function
    [(e) => !e._stopped && fn(e)] that [patchStopImmediatePropagation]
    builds around [fn]. *)
Inductive Func :=
  | UserFn (h : Handler)
  | Guarded (fn : Func).

(** [type EventValue = Function | Function[]] *)
Inductive EventValue :=
  | Single (f : Func)
  | Many (fs : list Func).

(** The value of an event's [stopImmediatePropagation] property: the
    native method, or the closure installed over [originalStop]. *)
Inductive StopImpl :=
  | NativeStop
  | PatchedStop (originalStop : StopImpl).

(** [Event & { _vts?: number }], with the private [_stopped] mark and the
    platform's own "stop immediate propagation" flag. *)
Record Event := {
  _vts : option Z;
  _stopped : bool;
  stopImmediatePropagation : StopImpl;
  stop_immediate_flag : bool
}.

Definition set_vts (t : option Z) (e : Event) : Event :=
  {| _vts := t; _stopped := _stopped e;
     stopImmediatePropagation := stopImmediatePropagation e;
     stop_immediate_flag := stop_immediate_flag e |}.

Definition set_stopped (b : bool) (e : Event) : Event :=
  {| _vts := _vts e; _stopped := b;
     stopImmediatePropagation := stopImmediatePropagation e;
     stop_immediate_flag := stop_immediate_flag e |}.

Definition set_stopImmediatePropagation (s : StopImpl) (e : Event) : Event :=
  {| _vts := _vts e; _stopped := _stopped e;
     stopImmediatePropagation := s;
     stop_immediate_flag := stop_immediate_flag e |}.

Definition set_stop_immediate_flag (b : bool) (e : Event) : Event :=
  {| _vts := _vts e; _stopped := _stopped e;
     stopImmediatePropagation := stopImmediatePropagation e;
     stop_immediate_flag := b |}.

(** Running a stop method on [e]: the native one raises the platform
    flag; a patched one is [() => { originalStop.call(e); e._stopped = true }]. *)
Fixpoint call_stop (s : StopImpl) (e : Event) : Event :=
  match s with
  | NativeStop => set_stop_immediate_flag true e
  | PatchedStop originalStop => set_stopped true (call_stop originalStop e)
  end.

(** [e.stopImmediatePropagation()] *)
Definition do_stopImmediatePropagation (e : Event) : Event :=
  call_stop (stopImmediatePropagation e) e.

(** Invoker objects and component instances are named by references. *)
Abbreviation InvokerRef := nat (only parsing).
Abbreviation ComponentInstance := nat (only parsing).

(** [interface Invoker extends EventListener { value; attached }], with
    the [instance] its closure captured. *)
Record Invoker := {
  value : EventValue;
  attached : Z;
  instance : option ComponentInstance
}.

Definition set_value (v : EventValue) (i : Invoker) : Invoker :=
  {| value := v; attached := attached i; instance := instance i |}.

(** The callback queued by [p.then(() => (cachedNow = 0))]. *)
Inductive Microtask := ResetCachedNow.

(** What the module takes from its surroundings: the application state
    handlers work on, the values they throw, the error codes of the error
    handling module ([ErrorCodes] is an enumeration declared outside the
    sources at hand), the successive readings of the wall clock, and the
    behaviour of every user function on an event. *)
Class Host := {
  User : Type;
  Err : Type;
  ErrorCodes : Type;
  NATIVE_EVENT_HANDLER : ErrorCodes;
  wall_clock : nat -> Z;
  behave : Handler -> Event -> User -> Completion Err (Event * User)
}.

Section Runtime.
Context {host : Host}.

Record ErrorReport := {
  rep_err : Err;
  rep_instance : option ComponentInstance;
  rep_type : ErrorCodes
}.

(** Module-level and ambient state: [cachedNow], the microtask queue,
    the number of clock readings taken so far, the store of invoker
    objects, the application state, and two records kept for the
    statements: the user functions entered (with the event each one
    received) and the errors handed to the error channel.  The last field
    is [Object.prototype.value]: absent in a fresh realm, it is what every
    plain object inherits under the name "value" once something has
    written it. *)
Record Runtime := {
  cachedNow : Z;
  microtasks : list Microtask;
  reads : nat;
  heap : list Invoker;
  user : User;
  calls : list (Handler * Event);
  reported : list ErrorReport;
  prototype_value : option EventValue
}.

Definition set_cachedNow (t : Z) (rt : Runtime) : Runtime :=
  {| cachedNow := t; microtasks := microtasks rt; reads := reads rt;
     heap := heap rt; user := user rt; calls := calls rt;
     reported := reported rt; prototype_value := prototype_value rt |}.

Definition set_microtasks (q : list Microtask) (rt : Runtime) : Runtime :=
  {| cachedNow := cachedNow rt; microtasks := q; reads := reads rt;
     heap := heap rt; user := user rt; calls := calls rt;
     reported := reported rt; prototype_value := prototype_value rt |}.

Definition set_reads (n : nat) (rt : Runtime) : Runtime :=
  {| cachedNow := cachedNow rt; microtasks := microtasks rt; reads := n;
     heap := heap rt; user := user rt; calls := calls rt;
     reported := reported rt; prototype_value := prototype_value rt |}.

Definition set_heap (h : list Invoker) (rt : Runtime) : Runtime :=
  {| cachedNow := cachedNow rt; microtasks := microtasks rt;
     reads := reads rt; heap := h; user := user rt; calls := calls rt;
     reported := reported rt; prototype_value := prototype_value rt |}.

Definition set_user (u : User) (rt : Runtime) : Runtime :=
  {| cachedNow := cachedNow rt; microtasks := microtasks rt;
     reads := reads rt; heap := heap rt; user := u; calls := calls rt;
     reported := reported rt; prototype_value := prototype_value rt |}.

Definition set_calls (c : list (Handler * Event)) (rt : Runtime) : Runtime :=
  {| cachedNow := cachedNow rt; microtasks := microtasks rt;
     reads := reads rt; heap := heap rt; user := user rt; calls := c;
     reported := reported rt; prototype_value := prototype_value rt |}.

Definition set_reported (r : list ErrorReport) (rt : Runtime) : Runtime :=
  {| cachedNow := cachedNow rt; microtasks := microtasks rt;
     reads := reads rt; heap := heap rt; user := user rt;
     calls := calls rt; reported := r;
     prototype_value := prototype_value rt |}.

Definition set_prototype_value (v : option EventValue) (rt : Runtime)
  : Runtime :=
  {| cachedNow := cachedNow rt; microtasks := microtasks rt;
     reads := reads rt; heap := heap rt; user := user rt;
     calls := calls rt; reported := reported rt; prototype_value := v |}.

(** [Date.now()] *)
Definition Date_now (rt : Runtime) : Z * Runtime :=
  (wall_clock (reads rt), set_reads (S (reads rt)) rt).

(** [cachedNow || (p.then(() => (cachedNow = 0)), (cachedNow = Date.now()))] *)
Definition getNow (rt : Runtime) : Z * Runtime :=
  if negb (cachedNow rt =? 0) then (cachedNow rt, rt)
  else
    let rt1 := set_microtasks (microtasks rt ++ [ResetCachedNow]) rt in
    let '(now, rt2) := Date_now rt1 in
    (now, set_cachedNow now rt2).

Definition run_microtask (m : Microtask) (rt : Runtime) : Runtime :=
  match m with ResetCachedNow => set_cachedNow 0 rt end.

(** The end of a tick: the queued microtasks run, in order. *)
Definition flush_microtasks (rt : Runtime) : Runtime :=
  foldl (fun acc m => run_microtask m acc)
        (set_microtasks [] rt) (microtasks rt).

(** Modelled from the spec: [isArray] of the shared package is not part
    of the sources at hand; its contract is "isArray(value) -> bool". *)
Definition isArray (v : EventValue) : bool :=
  match v with Many _ => true | Single _ => false end.

(** [value as Function[]]: a cast, only ever applied to an array. *)
Definition as_array (v : EventValue) : list Func :=
  match v with Many fs => fs | Single f => [f] end.

Definition patchStopImmediatePropagation (e : Event) (v : EventValue)
  : Event * EventValue :=
  if isArray v then
    let originalStop := stopImmediatePropagation e in
    let e1 := set_stopImmediatePropagation (PatchedStop originalStop) e in
    (e1, Many (map Guarded (as_array v)))
  else (e, v).

(** Applying a callable to the event. *)
Fixpoint apply_func (f : Func) (e : Event) (rt : Runtime)
  : Completion Err (Event * Runtime) :=
  match f with
  | UserFn h =>
      let rt1 := set_calls (calls rt ++ [(h, e)]) rt in
      match behave h e (user rt) with
      | Normal (e', u') => Normal (e', set_user u' rt1)
      | Abrupt x (e', u') => Abrupt x (e', set_user u' rt1)
      end
  | Guarded fn => if _stopped e then Normal (e, rt) else apply_func fn e rt
  end.

Definition handleError (x : Err) (inst : option ComponentInstance)
    (ty : ErrorCodes) (rt : Runtime) : Runtime :=
  set_reported
    (reported rt ++ [{| rep_err := x; rep_instance := inst; rep_type := ty |}])
    rt.

(** Modelled from the spec: the error handling module is not part of the
    sources at hand.  One function is called inside an error-catching
    adapter that hands what it throws to the shared error channel,
    with the instance and the error code. *)
Definition callWithErrorHandling (f : Func) (inst : option ComponentInstance)
    (ty : ErrorCodes) (e : Event) (rt : Runtime) : Event * Runtime :=
  match apply_func f e rt with
  | Normal s => s
  | Abrupt x (e', rt') => (e', handleError x inst ty rt')
  end.

(** The functions of an array are called one after the other, each in
    its own adapter, on the one event object. *)
Definition call_each (inst : option ComponentInstance) (ty : ErrorCodes)
    (s : Event * Runtime) (fs : list Func) : Event * Runtime :=
  foldl (fun s f => callWithErrorHandling f inst ty s.1 s.2) s fs.

(** Modelled from the spec: the error handling module is not part of the
    sources at hand.  "[callWithAsyncErrorHandling(fnOrFns, context,
    errorCodeKind, args)]: invokes one or many functions, catching and
    routing thrown errors through a shared error-reporting channel;
    never lets a handler exception escape to the caller"; of a list,
    "each function in order".  The argument list is the one event. *)
Definition callWithAsyncErrorHandling (fnOrFns : EventValue)
    (inst : option ComponentInstance) (ty : ErrorCodes) (e : Event)
    (rt : Runtime) : Completion Err (Event * Runtime) :=
  match fnOrFns with
  | Single f => Normal (callWithErrorHandling f inst ty e rt)
  | Many fs => Normal (call_each inst ty (e, rt) fs)
  end.

(** [createInvoker]: the new invoker object is stored at a fresh
    reference. *)
Definition createInvoker (initialValue : EventValue)
    (inst : option ComponentInstance) (rt : Runtime)
  : InvokerRef * Runtime :=
  let '(now, rt1) := getNow rt in
  let invoker :=
    {| value := initialValue; attached := now; instance := inst |} in
  (length (heap rt1), set_heap (heap rt1 ++ [invoker]) rt1).

(** [!e._vts]: the stamp is [undefined] or the falsy number. *)
Definition vts_falsy (e : Event) : bool :=
  match _vts e with None => true | Some t => t =? 0 end.

(** The call that ends the invoker's body:
    [callWithAsyncErrorHandling(patchStopImmediatePropagation(e, invoker.value),
    instance, ErrorCodes.NATIVE_EVENT_HANDLER, [e])]. *)
Definition deliver (v : EventValue) (inst : option ComponentInstance)
    (e : Event) (rt : Runtime) : Completion Err (Event * Runtime) :=
  let '(e1, fns) := patchStopImmediatePropagation e v in
  callWithAsyncErrorHandling fns inst NATIVE_EVENT_HANDLER e1 rt.

(** The body of the invoker function, for the invoker object at
    [invoker]; it reads [invoker.attached] and [invoker.value] when it
    runs.  A reference always names a stored object, so the first
    branch is only there to make the function total. *)
Definition invoker_call (invoker : InvokerRef) (e : Event) (rt : Runtime)
  : Completion Err (Event * Runtime) :=
  match heap rt !! invoker with
  | None => Normal (e, rt)
  | Some inv =>
      if vts_falsy e then
        let '(now, rt1) := Date_now rt in
        deliver (value inv) (instance inv) (set_vts (Some now) e) rt1
      else if bool_decide (default 0 (_vts e) < attached inv) then
        Normal (e, rt)
      else deliver (value inv) (instance inv) e rt
  end.

(** *** The element: listener list and invoker cache *)

(** An entry of an element's event listener list, as the platform keeps
    it: type, callback and the capture flag. *)
Record Listener := {
  l_type : string;
  l_callback : InvokerRef;
  l_capture : bool
}.

Global Instance Listener_eq_dec : EqDecision Listener.
Proof. solve_decision. Defined.

(** The calls made on the element's two listener methods, kept for the
    statements.  The handler of a removal is an invoker, [undefined], or,
    in the third form, the member of [Object.prototype] that the cache
    object inherits under [key]. *)
Inductive DomCall :=
  | AddCall (event : string) (handler : InvokerRef)
            (options : option EventListenerOptions)
  | RemoveCall (event : string) (handler : option InvokerRef)
               (options : option EventListenerOptions)
  | RemoveInheritedCall (event : string) (key : string)
                        (options : option EventListenerOptions).

(** An element: [el[veiKey]] (absent, or the object that maps raw names
    to an invoker or [undefined]), its listener list, and the record of
    listener-method calls. *)
Record Element := {
  vei : option (gmap string (option InvokerRef));
  listeners : list Listener;
  dom_calls : list DomCall
}.

Definition set_vei (c : option (gmap string (option InvokerRef)))
    (el : Element) : Element :=
  {| vei := c; listeners := listeners el; dom_calls := dom_calls el |}.

Definition capture_of (options : option EventListenerOptions) : bool :=
  match options with Some o => capture o | None => false end.

(** The platform's [el.addEventListener(event, handler, options)]: the
    listener is appended unless the list already has one with the same
    type, callback and capture flag. *)
Definition el_addEventListener (el : Element) (event : string)
    (handler : InvokerRef) (options : option EventListenerOptions)
  : Completion Err Element :=
  let l := {| l_type := event; l_callback := handler;
              l_capture := capture_of options |} in
  Normal
    {| vei := vei el;
       listeners :=
         if decide (l ∈ listeners el) then listeners el
         else listeners el ++ [l];
       dom_calls := dom_calls el ++ [AddCall event handler options] |}.

(** What reading a property of the cache object gives: [undefined], an
    invoker, or a member inherited from [Object.prototype] (a built-in
    function or object, or whatever [Object.prototype.value] holds), which
    is truthy and is not an invoker. *)
Inductive CacheRead :=
  | ReadUndefined
  | ReadInvoker (r : InvokerRef)
  | ReadInherited (key : string).

(** The platform's [el.removeEventListener(event, handler, options)]:
    the listener with that type, callback and capture flag leaves the
    list; with no callback, or with one that is not a listener of the
    element, nothing is found and nothing happens. *)
Definition el_removeEventListener (el : Element) (event : string)
    (handler : CacheRead) (options : option EventListenerOptions)
  : Completion Err Element :=
  Normal
    {| vei := vei el;
       listeners :=
         match handler with
         | ReadInvoker h =>
             filter (fun l => l ≠ {| l_type := event; l_callback := h;
                                     l_capture := capture_of options |})
                    (listeners el)
         | ReadUndefined | ReadInherited _ => listeners el
         end;
       dom_calls :=
         dom_calls el ++
         [match handler with
          | ReadUndefined => RemoveCall event None options
          | ReadInvoker h => RemoveCall event (Some h) options
          | ReadInherited key => RemoveInheritedCall event key options
          end] |}.

Definition addEventListener (el : Element) (event : string)
    (handler : InvokerRef) (options : option EventListenerOptions)
  : Completion Err Element :=
  el_addEventListener el event handler options.

Definition removeEventListener (el : Element) (event : string)
    (handler : CacheRead) (options : option EventListenerOptions)
  : Completion Err Element :=
  el_removeEventListener el event handler options.

(** The cache object's own entry under [rawName]: the invoker stored
    there; no entry, or an entry holding [undefined], gives [None]. *)
Definition slot (invokers : gmap string (option InvokerRef))
    (rawName : string) : option InvokerRef :=
  default None (invokers !! rawName).

(** The names of the members that every plain object inherits from
    [Object.prototype]. *)
Definition object_prototype_keys : list string :=
  ["constructor"; "__defineGetter__"; "__defineSetter__"; "hasOwnProperty";
   "__lookupGetter__"; "__lookupSetter__"; "isPrototypeOf";
   "propertyIsEnumerable"; "toString"; "valueOf"; "__proto__";
   "toLocaleString"].

(** Whether a plain object inherits a member under [rawName]. *)
Definition inherits (rt : Runtime) (rawName : string) : bool :=
  bool_decide (rawName ∈ object_prototype_keys)
  || (bool_decide (rawName = "value")
      && bool_decide (is_Some (prototype_value rt))).

(** [invokers[rawName]] on the cache object, which is a plain [{}]: an own
    entry is read as it is (also when it holds [undefined]); without one
    the read goes to [Object.prototype]. *)
Definition read_cache (rt : Runtime)
    (invokers : gmap string (option InvokerRef)) (rawName : string)
  : CacheRead :=
  match invokers !! rawName with
  | Some (Some r) => ReadInvoker r
  | Some None => ReadUndefined
  | None =>
      if inherits rt rawName then ReadInherited rawName else ReadUndefined
  end.

(** [existingInvoker.value = nextValue] when [existingInvoker] is the
    member inherited under [key]: under "__proto__" that member is
    [Object.prototype] itself, so the write sets [Object.prototype.value];
    under any other name it sets a property of a built-in function, or of
    the value inherited as "value", which nothing here reads. *)
Definition write_inherited_value (key : string) (v : EventValue)
    (rt : Runtime) : Runtime :=
  if bool_decide (key = "__proto__") then set_prototype_value (Some v) rt
  else rt.

(** [invokers[rawName] = undefined]: an own entry is made or overwritten,
    except that on an object without an own "__proto__" entry that name is
    the accessor of [Object.prototype], whose setter ignores
    [undefined]. *)
Definition assign_undefined (invokers : gmap string (option InvokerRef))
    (rawName : string) : gmap string (option InvokerRef) :=
  if bool_decide (rawName = "__proto__")
     && bool_decide (invokers !! rawName = None)
  then invokers
  else <[rawName := None]> invokers.

(** [patchEvent(el, rawName, nextValue)]; a [nextValue] of [None] is the
    empty (falsy) one.  Where the new invoker is stored, [rawName] has just
    read as [undefined]: it has an own entry or is not a name of
    [Object.prototype], so the write makes or overwrites an own entry. *)
Definition patchEvent (el : Element) (rawName : string)
    (nextValue : option EventValue) (rt : Runtime)
  : Completion Err (Element * Runtime) :=
  let invokers := default ∅ (vei el) in
  let el := set_vei (Some invokers) el in
  let existingInvoker := read_cache rt invokers rawName in
  match existingInvoker, nextValue with
  | ReadInvoker existing, Some v =>
      Normal (el, set_heap (alter (set_value v) existing (heap rt)) rt)
  | ReadInherited key, Some v =>
      Normal (el, write_inherited_value key v rt)
  | _, _ =>
      let '(name, options) := parseName rawName in
      match nextValue with
      | Some v =>
          let '(invoker, rt1) := createInvoker v None rt in
          let el1 :=
            set_vei (Some (<[rawName := Some invoker]> invokers)) el in
          match addEventListener el1 name invoker options with
          | Normal el2 => Normal (el2, rt1)
          | Abrupt x el2 => Abrupt x (el2, rt1)
          end
      | None =>
          match removeEventListener el name existingInvoker options with
          | Normal el1 =>
              Normal
                (set_vei (Some (assign_undefined invokers rawName)) el1, rt)
          | Abrupt x el1 => Abrupt x (el1, rt)
          end
      end
  end.

(** *** Dispatch on one element

    The platform walks the listeners of the event's type in the order
    they were added and stops once the event's "stop immediate
    propagation" flag is up; what a listener throws is reported by the
    platform and the walk goes on. *)
Definition fire_listener (s : Event * Runtime * list Err) (l : Listener)
  : Event * Runtime * list Err :=
  let '(e, rt, uncaught) := s in
  if stop_immediate_flag e then s
  else
    match invoker_call (l_callback l) e rt with
    | Normal (e', rt') => (e', rt', uncaught)
    | Abrupt x (e', rt') => (e', rt', uncaught ++ [x])
    end.

Definition dispatchEvent (el : Element) (event : string) (e : Event)
    (rt : Runtime) : Event * Runtime * list Err :=
  foldl fire_listener (e, rt, [])
        (filter (fun l => l_type l = event) (listeners el)).

(** *** Synchronous segments

    What can happen between two points of one synchronous segment: the
    clock is read, an invoker is created, an element is patched, an
    invoker fires.  No microtask runs inside a segment. *)
Inductive SyncStep :=
  | StepDateNow
  | StepCreateInvoker (v : EventValue) (inst : option ComponentInstance)
  | StepPatchEvent (el : Element) (rawName : string)
                   (nextValue : option EventValue)
  | StepInvoke (invoker : InvokerRef) (e : Event).

Definition run_step (rt : Runtime) (st : SyncStep) : Runtime :=
  match st with
  | StepDateNow => (Date_now rt).2
  | StepCreateInvoker v inst => (createInvoker v inst rt).2
  | StepPatchEvent el rawName nextValue =>
      (state_of (patchEvent el rawName nextValue rt)).2
  | StepInvoke invoker e => (state_of (invoker_call invoker e rt)).2
  end.

Definition run_segment (steps : list SyncStep) (rt : Runtime) : Runtime :=
  foldl run_step rt steps.

(** [invoker.attached] of the invoker object at a reference. *)
Definition attached_at (rt : Runtime) (r : InvokerRef) : option Z :=
  attached <$> heap rt !! r.

Definition value_at (rt : Runtime) (r : InvokerRef) : option EventValue :=
  value <$> heap rt !! r.

(** What running handlers leaves alone: the clock cache, the queue,
    the count of clock readings and the invoker store. *)
Definition same_frame (rt rt' : Runtime) : Prop :=
  cachedNow rt' = cachedNow rt /\ microtasks rt' = microtasks rt /\
  reads rt' = reads rt /\ heap rt' = heap rt.

(** The record of entered handlers and the error channel only grow, and
    every new report carries the given instance and code. *)
Definition records_grow (inst : option ComponentInstance)
    (ty : ErrorCodes) (rt rt' : Runtime) : Prop :=
  (exists l, calls rt' = calls rt ++ l) /\
  (exists l, reported rt' = reported rt ++ l /\
     Forall (fun rep => rep_type rep = ty /\ rep_instance rep = inst) l).

(** The user function at the core of a callable. *)
Fixpoint handler_of (f : Func) : Handler :=
  match f with UserFn h => h | Guarded fn => handler_of fn end.

(** The store only grows, and the attached times already in it stay
    as they are. *)
Definition keeps_attached (h h' : list Invoker) : Prop :=
  (length h <= length h')%nat /\
  forall r a,
    attached <$> h !! r = Some a -> attached <$> h' !! r = Some a.

(** The entry under which an invoker is registered for a raw name. *)
Definition listener_for (rawName : string) (r : InvokerRef) : Listener :=
  {| l_type := (parseName rawName).1; l_callback := r;
     l_capture := capture_of (parseName rawName).2 |}.

(** [el[veiKey]] read as a map: no cache object yet reads as an empty one. *)
Definition cache_of (el : Element) : gmap string (option InvokerRef) :=
  default ∅ (vei el).

(** The cache and the listener list of an element agree: the listeners are
    pairwise different, each one is the registration of an invoker that the
    cache holds (and that is in the store), each cached invoker is
    registered, and no invoker is cached under two raw names. *)
Definition consistent (el : Element) (rt : Runtime) : Prop :=
  NoDup (listeners el) /\
  (forall l, l ∈ listeners el ->
     (l_callback l < length (heap rt))%nat /\
     exists rawName,
       slot (cache_of el) rawName = Some (l_callback l) /\
       l = listener_for rawName (l_callback l)) /\
  (forall rawName r,
     slot (cache_of el) rawName = Some r ->
     listener_for rawName r ∈ listeners el) /\
  (forall raw1 raw2 r,
     slot (cache_of el) raw1 = Some r -> slot (cache_of el) raw2 = Some r ->
     raw1 = raw2).

(** A cached timestamp always has its reset waiting in the queue. *)
Definition clock_ok (rt : Runtime) : Prop :=
  cachedNow rt <> 0 -> microtasks rt <> [].


(** No user function writes the event's dispatch timestamp. *)
Definition keeps_vts : Prop :=
  forall h e u, _vts (state_of (behave h e u)).1 = _vts e.

(** The options a listener-method call was given. *)
Definition call_options (c : DomCall) : option EventListenerOptions :=
  match c with
  | AddCall _ _ o | RemoveCall _ _ o | RemoveInheritedCall _ _ o => o
  end.

(** The cache object has no own entry under [rawName] and inherits a
    member under it. *)
Definition reads_inherited (rt : Runtime) (el : Element)
    (rawName : string) : bool :=
  bool_decide (default ∅ (vei el) !! rawName = None) && inherits rt rawName.

(** A new element: no cache, no listeners. *)
Definition new_element : Element :=
  {| vei := None; listeners := []; dom_calls := [] |}.

End Runtime.

End Events.

(** ** The reactive proxy factory *)

Module Reactive.

Abbreviation Ref := nat (only parsing).

(** The flags of a wrap: [reactive] is deep and mutable, [readonly] deep
    and read-only, [shallowReactive] and [shallowReadonly] their shallow
    forms. *)
Record Flags := { flag_deep : bool; flag_readonly : bool }.

Global Instance Flags_eq_dec : EqDecision Flags.
Proof. solve_decision. Defined.

Definition flag_key (f : Flags) : bool * bool :=
  (flag_deep f, flag_readonly f).

Inductive Value :=
  | Prim (n : Z)
  | Obj (r : Ref).

Inductive Object :=
  | Plain (fields : gmap string Value)
  | Proxy (target : Ref) (flags : Flags).

(** The objects in memory, and the cache from a target and the flags of a
    wrap to the proxy made for them. *)
Record Store := {
  objects : list Object;
  proxies : gmap (nat * (bool * bool)) nat
}.

Definition empty_store : Store := {| objects := []; proxies := ∅ |}.

(** [new Object]: a plain object at a fresh reference. *)
Definition alloc (fields : gmap string Value) (st : Store) : Ref * Store :=
  (length (objects st),
   {| objects := objects st ++ [Plain fields]; proxies := proxies st |}).

Definition cached_or_new (r : Ref) (f : Flags) (st : Store) : Value * Store :=
  match proxies st !! (r, flag_key f) with
  | Some p => (Obj p, st)
  | None =>
      let p := length (objects st) in
      (Obj p,
       {| objects := objects st ++ [Proxy r f];
          proxies := <[(r, flag_key f) := p]> (proxies st) |})
  end.

(** Modelled from the spec: the reactive module is not part of the sources
    at hand (only the package index that re-exports it is).  The spec has
    "[wrap(target, {deep, readonly}) -> proxy].  Fails silently (returns
    target unmodified) if target is already a proxy carrying the matching
    flag, or is not an object-like value (primitives pass through
    unchanged)", and "wrapping the same target twice returns the same
    proxy (identity-stable, via a target->proxy cache)". *)
Definition wrap (target : Value) (f : Flags) (st : Store) : Value * Store :=
  match target with
  | Prim _ => (target, st)
  | Obj r =>
      match objects st !! r with
      | Some (Proxy _ g) =>
          if decide (g = f) then (target, st) else cached_or_new r f st
      | _ => cached_or_new r f st
      end
  end.

Definition reactive (target : Value) : Store -> Value * Store :=
  wrap target {| flag_deep := true; flag_readonly := false |}.
Definition shallowReactive (target : Value) : Store -> Value * Store :=
  wrap target {| flag_deep := false; flag_readonly := false |}.
Definition readonly (target : Value) : Store -> Value * Store :=
  wrap target {| flag_deep := true; flag_readonly := true |}.
Definition shallowReadonly (target : Value) : Store -> Value * Store :=
  wrap target {| flag_deep := false; flag_readonly := true |}.

(** Every entry of the cache names a proxy of its target with its flags. *)
Definition cache_ok (st : Store) : Prop :=
  forall r k p, proxies st !! (r, k) = Some p ->
    exists f, flag_key f = k /\ objects st !! p = Some (Proxy r f).

End Reactive.

(** ** The constants of the reactivity package *)

Module Constant.

(** [enum ReactiveFlags] *)
Inductive ReactiveFlags :=
  | SKIP | RAW | IS_REF | IS_REACTIVE | IS_READONLY | IS_SHALLOW.

(** The string each member stands for. *)
Definition ReactiveFlags_value (f : ReactiveFlags) : string :=
  match f with
  | SKIP => "__v_skip"
  | RAW => "__v_raw"
  | IS_REF => "__v_IsRef"
  | IS_REACTIVE => "__v_isReactive"
  | IS_READONLY => "__v_isReadonly"
  | IS_SHALLOW => "__v_isShallow"
  end.

(** [enum TrackOpTypes] *)
Inductive TrackOpTypes := GET | HAS | ITERATE.

Definition TrackOpTypes_value (t : TrackOpTypes) : string :=
  match t with
  | GET => "get"
  | HAS => "has"
  | ITERATE => "iterate"
  end.

End Constant.

(** ** Hosts used to run the model on concrete inputs *)

Module Demo.
Import Events.

Inductive Code := SETUP_FUNCTION | NATIVE_EVENT_HANDLER | RENDER_FUNCTION.

(** Handler 1 stops immediate propagation, handler 2 throws, handler 3
    clears the private mark; every other handler just notes its
    identity in the application state. *)
Definition demo_behave (h : Handler) (e : Event) (u : list nat)
  : Completion nat (Event * list nat) :=
  match h with
  | 1%nat => Normal (do_stopImmediatePropagation e, u ++ [h])
  | 2%nat => Abrupt 7%nat (e, u)
  | 3%nat => Normal (set_stopped false e, u ++ [h])
  | _ => Normal (e, u ++ [h])
  end.

(** A clock that starts at 1000 and moves by one at every reading. *)
Definition late_host : Host :=
  {| User := list nat; Err := nat; ErrorCodes := Code;
     Events.NATIVE_EVENT_HANDLER := NATIVE_EVENT_HANDLER;
     wall_clock := fun n => 1000 + Z.of_nat n;
     behave := demo_behave |}.

(** A clock whose first reading is the epoch itself. *)
Definition epoch_host : Host :=
  {| User := list nat; Err := nat; ErrorCodes := Code;
     Events.NATIVE_EVENT_HANDLER := NATIVE_EVENT_HANDLER;
     wall_clock := fun n => Z.of_nat n;
     behave := demo_behave |}.

Definition start (host : Host) (u : @User host) : @Runtime host :=
  {| cachedNow := 0; microtasks := []; reads := 0; heap := [];
     user := u; calls := []; reported := []; prototype_value := None |}.

Definition fresh_event : Event :=
  {| _vts := None; _stopped := false;
     stopImmediatePropagation := NativeStop;
     stop_immediate_flag := false |}.

(** A runtime holding one invoker, attached at [t]. *)
Definition with_invoker (host : Host) (u : @User host) (v : EventValue)
    (t : Z) : @Runtime host :=
  {| cachedNow := 0; microtasks := []; reads := 0;
     heap := [ {| value := v; attached := t; instance := None |} ];
     user := u; calls := []; reported := []; prototype_value := None |}.

End Demo.

(** ** Properties *)

Import Shared EventName Events.

(** *** Event names *)

Lemma slice_after_prefix (a b : ascii) (s : string) :
  slice 2 (String a (String b s)) = s.
Proof. reflexivity. Qed.

Lemma hyphenate_examples :
  hyphenate "Click" = "click" /\ hyphenate "DoubleClick" = "double-click".
Proof. split; reflexivity. Qed.

(** C5: [parseName] returns what follows the 2-character prefix and the
    colon, untouched, when the third character is a colon, and otherwise the
    hyphenated form of what follows the 2-character prefix; the options are
    always [undefined].  So "onClick" gives "click", "on:my-event" gives
    "my-event" and "onDoubleClick" gives "double-click". *)
Theorem parseName_forms (name : string) :
  (char_at name 2 = Some ":"%char ->
     parseName name = (slice 3 name, None)) /\
  (char_at name 2 <> Some ":"%char ->
     parseName name = (hyphenate (slice 2 name), None)) /\
  (forall (hyph : string -> string) (a b : ascii) (s : string),
     parseName_with hyph (String a (String b (String ":" s))) = (s, None)) /\
  (forall (hyph : string -> string) (a b : ascii) (s : string),
     char_at s 0 <> Some ":"%char ->
     parseName_with hyph (String a (String b s)) = (hyph s, None)) /\
  parseName "onClick" = ("click", None) /\
  parseName "on:my-event" = ("my-event", None) /\
  parseName "onDoubleClick" = ("double-click", None).
Proof.
  repeat split.
  - intros Hc. unfold parseName, parseName_with.
    by rewrite bool_decide_eq_true_2.
  - intros Hc. unfold parseName, parseName_with.
    by rewrite bool_decide_eq_false_2.
  - intros hyph a b s Hc. unfold parseName_with.
    rewrite bool_decide_eq_false_2; [done|].
    destruct s; exact Hc.
Qed.

Lemma parseName_forms_witness :
  parseName "on:my-event" = ("my-event", None) /\
  parseName "onKeyUp" = ("key-up", None).
Proof.
  split.
  - apply (proj1 (parseName_forms "on:my-event")). reflexivity.
  - apply (proj1 (proj2 (parseName_forms "onKeyUp"))). discriminate.
Defined.

(** *** Running handlers: what stays and what grows *)

Section HandlerFacts.
Context {host : Host}.

Lemma same_frame_refl (rt : Runtime) : same_frame rt rt.
Proof. by repeat split. Qed.

Lemma same_frame_trans (a b c : Runtime) :
  same_frame a b -> same_frame b c -> same_frame a c.
Proof.
  intros (?&?&?&?) (?&?&?&?). repeat split; congruence.
Qed.

Lemma records_grow_refl inst ty (rt : Runtime) : records_grow inst ty rt rt.
Proof.
  split; [exists []|exists []]; rewrite ?app_nil_r; auto.
Qed.

Lemma records_grow_trans inst ty (a b c : Runtime) :
  records_grow inst ty a b -> records_grow inst ty b c ->
  records_grow inst ty a c.
Proof.
  intros [[l1 H1] [m1 [H2 F1]]] [[l2 H3] [m2 [H4 F2]]]. split.
  - exists (l1 ++ l2). by rewrite H3, H1, app_assoc.
  - exists (m1 ++ m2). split; [by rewrite H4, H2, app_assoc|].
    by apply Forall_app.
Qed.

Lemma apply_func_frame (f : Func) (e : Event) (rt : Runtime) :
  let rt' := (state_of (apply_func f e rt)).2 in
  same_frame rt rt' /\ reported rt' = reported rt /\
  exists l, calls rt' = calls rt ++ l.
Proof.
  induction f as [h|fn IH]; simpl.
  - destruct (behave h e (user rt)) as [[e' u']|x [e' u']]; simpl;
      (split; [by repeat split|split; [done|by eexists]]).
  - destruct (_stopped e); simpl; [|exact IH].
    split; [apply same_frame_refl|split; [done|]].
    exists []. by rewrite app_nil_r.
Qed.

Lemma callWithErrorHandling_frame f inst ty (e : Event) (rt : Runtime) :
  let rt' := (callWithErrorHandling f inst ty e rt).2 in
  same_frame rt rt' /\ records_grow inst ty rt rt'.
Proof.
  unfold callWithErrorHandling.
  pose proof (apply_func_frame f e rt) as (Hf & Hr & Hc).
  destruct (apply_func f e rt) as [[e' rt']|x [e' rt']]; simpl in *.
  - split; [done|]. split; [done|]. exists [].
    by rewrite app_nil_r.
  - split; [exact Hf|]. split; [exact Hc|].
    eexists. split; [simpl; rewrite Hr; reflexivity|].
    by repeat constructor.
Qed.

Lemma call_list_frame fs inst ty (e : Event) (rt : Runtime) :
  let rt' := (call_each inst ty (e, rt) fs).2 in
  same_frame rt rt' /\ records_grow inst ty rt rt'.
Proof.
  unfold call_each.
  revert e rt. induction fs as [|f fs IH]; intros e rt; simpl.
  - split; [apply same_frame_refl|apply records_grow_refl].
  - pose proof (callWithErrorHandling_frame f inst ty e rt) as [F1 G1].
    destruct (callWithErrorHandling f inst ty e rt) as [e1 rt1] eqn:E1.
    simpl in *. destruct (IH e1 rt1) as [F2 G2]. split.
    + eapply same_frame_trans; eauto.
    + eapply records_grow_trans; eauto.
Qed.

(** The error-handling caller always returns. *)
Lemma callWithAsyncErrorHandling_normal v inst ty (e : Event) (rt : Runtime) :
  exists s, callWithAsyncErrorHandling v inst ty e rt = Normal s /\
            same_frame rt s.2 /\ records_grow inst ty rt s.2.
Proof.
  destruct v as [f|fs]; simpl; eexists; (split; [reflexivity|]).
  - apply callWithErrorHandling_frame.
  - apply call_list_frame.
Qed.

Lemma deliver_normal v inst (e : Event) (rt : Runtime) :
  exists s, deliver v inst e rt = Normal s /\
            same_frame rt s.2 /\
            records_grow inst NATIVE_EVENT_HANDLER rt s.2.
Proof.
  unfold deliver.
  destruct (patchStopImmediatePropagation e v) as [e1 fns].
  apply callWithAsyncErrorHandling_normal.
Qed.

Lemma deliver_single (f : Func) inst (e : Event) (rt : Runtime) :
  deliver (Single f) inst e rt
  = Normal (callWithErrorHandling f inst NATIVE_EVENT_HANDLER e rt).
Proof. reflexivity. Qed.

Lemma deliver_many (fs : list Func) inst (e : Event) (rt : Runtime) :
  deliver (Many fs) inst e rt
  = Normal
      (call_each inst NATIVE_EVENT_HANDLER
         (set_stopImmediatePropagation
            (PatchedStop (stopImmediatePropagation e)) e, rt)
         (map Guarded fs)).
Proof. reflexivity. Qed.

(** An invoker call returns, touches neither the clock cache, the queue
    nor the store, and reads the clock at most once. *)
Lemma invoker_call_normal (r : InvokerRef) (e : Event) (rt : Runtime) :
  exists s, invoker_call r e rt = Normal s /\
    cachedNow s.2 = cachedNow rt /\ microtasks s.2 = microtasks rt /\
    heap s.2 = heap rt /\ (reads rt <= reads s.2)%nat.
Proof.
  unfold invoker_call. destruct (heap rt !! r) as [inv|]; [|by eexists].
  destruct (vts_falsy e).
  - simpl.
    destruct (deliver_normal (value inv) (instance inv)
                (set_vts (Some (wall_clock (reads rt))) e)
                (set_reads (S (reads rt)) rt)) as (s & -> & (?&?&Hr&?) & _).
    exists s. simpl in *. repeat split; try done. lia.
  - case_bool_decide; [by eexists|].
    destruct (deliver_normal (value inv) (instance inv) e rt)
      as (s & -> & (?&?&Hr&?) & _).
    exists s. repeat split; try done. lia.
Qed.

Lemma invoker_call_unstamped (r : InvokerRef) (inv : Invoker) (e : Event)
    (rt : Runtime) :
  heap rt !! r = Some inv -> vts_falsy e = true ->
  invoker_call r e rt
  = deliver (value inv) (instance inv)
      (set_vts (Some (wall_clock (reads rt))) e)
      (set_reads (S (reads rt)) rt).
Proof. intros Hr Hf. unfold invoker_call. by rewrite Hr, Hf. Qed.

Lemma invoker_call_stamped (r : InvokerRef) (inv : Invoker) (e : Event)
    (rt : Runtime) (t : Z) :
  heap rt !! r = Some inv -> _vts e = Some t -> t <> 0 ->
  invoker_call r e rt
  = if bool_decide (t < attached inv) then Normal (e, rt)
    else deliver (value inv) (instance inv) e rt.
Proof.
  intros Hr Ht Hz. unfold invoker_call, vts_falsy. rewrite Hr, Ht. simpl.
  by rewrite (proj2 (Z.eqb_neq t 0) Hz).
Qed.

Lemma call_user_fn (h : Handler) inst ty (e : Event) (rt : Runtime) :
  calls (callWithErrorHandling (UserFn h) inst ty e rt).2
  = calls rt ++ [(h, e)].
Proof.
  unfold callWithErrorHandling. simpl.
  by destruct (behave h e (user rt)) as [[e' u']|x [e' u']].
Qed.

Lemma call_guarded_stopped (f : Func) inst ty (e : Event) (rt : Runtime) :
  _stopped e = true ->
  callWithErrorHandling (Guarded f) inst ty e rt = (e, rt).
Proof. intros Hs. unfold callWithErrorHandling. simpl. by rewrite Hs. Qed.

Lemma call_guarded_running (f : Func) inst ty (e : Event) (rt : Runtime) :
  _stopped e = false ->
  callWithErrorHandling (Guarded f) inst ty e rt
  = callWithErrorHandling f inst ty e rt.
Proof. intros Hs. unfold callWithErrorHandling. simpl. by rewrite Hs. Qed.

Lemma call_each_stopped (fs : list Func) inst ty (e : Event) (rt : Runtime) :
  _stopped e = true ->
  call_each inst ty (e, rt) (map Guarded fs) = (e, rt).
Proof.
  intros Hs. induction fs as [|f fs IH]; [done|].
  unfold call_each in *. simpl. by rewrite call_guarded_stopped.
Qed.

(** One callable enters at most its own user function, with the event
    it was given. *)
Lemma apply_func_entered (f : Func) (e : Event) (rt : Runtime) :
  let rt' := (state_of (apply_func f e rt)).2 in
  calls rt' = calls rt \/ calls rt' = calls rt ++ [(handler_of f, e)].
Proof.
  induction f as [h|fn IH]; simpl.
  - right. by destruct (behave h e (user rt)) as [[e' u']|x [e' u']].
  - destruct (_stopped e); simpl; [by left|exact IH].
Qed.

Lemma callWithErrorHandling_entered (f : Func) inst ty (e : Event)
    (rt : Runtime) :
  let rt' := (callWithErrorHandling f inst ty e rt).2 in
  calls rt' = calls rt \/ calls rt' = calls rt ++ [(handler_of f, e)].
Proof.
  unfold callWithErrorHandling.
  pose proof (apply_func_entered f e rt) as H.
  by destruct (apply_func f e rt) as [[e' rt']|x [e' rt']].
Qed.

(** The functions of a list are entered in the order of the list. *)
Lemma call_each_in_order (fs : list Func) inst ty (s : Event * Runtime) :
  exists l, calls (call_each inst ty s fs).2 = calls s.2 ++ l /\
            sublist (l.*1) (handler_of <$> fs).
Proof.
  revert s. induction fs as [|f fs IH]; intros [e rt]; simpl.
  - exists []. by rewrite app_nil_r.
  - unfold call_each in *. simpl.
    pose proof (callWithErrorHandling_entered f inst ty e rt) as H1.
    destruct (IH (callWithErrorHandling f inst ty e rt)) as (l & Hl & Hs).
    destruct H1 as [H1|H1]; simpl in *; rewrite H1 in Hl.
    + exists l. split; [done|]. by apply sublist_cons.
    + exists ((handler_of f, e) :: l). split.
      * by rewrite Hl, <- app_assoc.
      * simpl. by apply sublist_skip.
Qed.

(** What a call of a user function leaves behind is what the function's
    behaviour says: its event and its application state. *)
Lemma call_user_fn_result (h : Handler) inst ty (e : Event) (rt : Runtime) :
  (callWithErrorHandling (UserFn h) inst ty e rt).1
  = (state_of (behave h e (user rt))).1 /\
  user (callWithErrorHandling (UserFn h) inst ty e rt).2
  = (state_of (behave h e (user rt))).2.
Proof.
  unfold callWithErrorHandling. simpl.
  by destruct (behave h e (user rt)) as [[e' u']|x [e' u']].
Qed.

(** When no handler of the list sets the stopped mark, every handler is
    entered, in list order. *)
Lemma call_each_all_entered (hs : list Handler) inst ty (s : Event * Runtime) :
  _stopped s.1 = false ->
  (forall h e0 u, h ∈ hs -> _stopped e0 = false ->
                  _stopped (state_of (behave h e0 u)).1 = false) ->
  (calls (call_each inst ty s (map Guarded (UserFn <$> hs))).2).*1
  = (calls s.2).*1 ++ hs.
Proof.
  revert s. induction hs as [|h hs IH]; intros [e rt] Hrun Hkeep.
  - simpl. by rewrite app_nil_r.
  - unfold call_each in *. simpl in *.
    rewrite call_guarded_running by done.
    rewrite IH.
    + rewrite call_user_fn, fmap_app. simpl. by rewrite <- app_assoc.
    + rewrite (proj1 (call_user_fn_result h inst ty e rt)).
      apply Hkeep; [by left|done].
    + intros h' e0 u Hin. apply Hkeep. by right.
Qed.

End HandlerFacts.

(** *** Firing an invoker *)

(** C1, as amended: when an invoker fires on an event that carries no
    dispatch timestamp, or the timestamp 0 (which the invoker cannot tell
    from none), it stamps the event with the current wall-clock time and
    hands it to the handlers; when the event carries a non-zero timestamp
    strictly earlier than the invoker's attached time, nothing is invoked
    and nothing changes; when the non-zero timestamp is at or after the
    attached time, the event is handed to the handlers.  Handing over
    enters a single handler with that event, and enters the first handler
    of a list unless the event is already marked stopped. *)
Theorem invoker_fire_cases {host : Host} (r : InvokerRef) (inv : Invoker)
    (e : Event) (rt : Runtime) :
  heap rt !! r = Some inv ->
  (_vts e = None \/ _vts e = Some 0 ->
     invoker_call r e rt
     = deliver (value inv) (instance inv)
         (set_vts (Some (wall_clock (reads rt))) e)
         (set_reads (S (reads rt)) rt)) /\
  (forall t, _vts e = Some t -> t <> 0 -> t < attached inv ->
     invoker_call r e rt = Normal (e, rt)) /\
  (forall t, _vts e = Some t -> t <> 0 -> attached inv <= t ->
     invoker_call r e rt = deliver (value inv) (instance inv) e rt) /\
  (forall (h : Handler) inst (e0 : Event) (rt0 : Runtime),
     exists s, deliver (Single (UserFn h)) inst e0 rt0 = Normal s /\
               calls s.2 = calls rt0 ++ [(h, e0)]) /\
  (forall (h : Handler) (fs : list Func) inst (e0 : Event) (rt0 : Runtime),
     _stopped e0 = false ->
     exists s rest,
       deliver (Many (UserFn h :: fs)) inst e0 rt0 = Normal s /\
       calls s.2
       = calls rt0 ++
         (h, set_stopImmediatePropagation
               (PatchedStop (stopImmediatePropagation e0)) e0) :: rest).
Proof.
  intros Hr. repeat split.
  - intros Hv. apply invoker_call_unstamped; [done|].
    unfold vts_falsy. by destruct Hv as [-> | ->].
  - intros t Ht Hz Hlt. rewrite (invoker_call_stamped r inv e rt t) by done.
    by rewrite bool_decide_eq_true_2.
  - intros t Ht Hz Hle. rewrite (invoker_call_stamped r inv e rt t) by done.
    rewrite bool_decide_eq_false_2; [done|lia].
  - intros h inst e0 rt0. eexists. split; [apply deliver_single|].
    apply call_user_fn.
  - intros h fs inst e0 rt0 Hs.
    rewrite deliver_many. unfold call_each. simpl.
    rewrite call_guarded_running by done.
    set (e1 := set_stopImmediatePropagation _ e0).
    destruct (call_each_in_order (map Guarded fs) inst NATIVE_EVENT_HANDLER
                (callWithErrorHandling (UserFn h) inst NATIVE_EVENT_HANDLER
                   e1 rt0)) as (l & Hl & _).
    eexists _, l. split; [reflexivity|].
    unfold call_each in Hl. rewrite Hl, call_user_fn.
    by rewrite <- app_assoc.
Qed.

Lemma invoker_fire_cases_witness :
  invoker_call 0%nat (set_vts (Some 3) Demo.fresh_event)
    (Demo.with_invoker Demo.late_host [] (Single (UserFn 0%nat)) 5)
  = Normal (set_vts (Some 3) Demo.fresh_event,
            Demo.with_invoker Demo.late_host [] (Single (UserFn 0%nat)) 5).
Proof.
  refine (proj1 (proj2 (invoker_fire_cases (host := Demo.late_host) 0%nat
            {| value := Single (UserFn 0%nat); attached := 5; instance := None |}
            (set_vts (Some 3) Demo.fresh_event)
            (Demo.with_invoker Demo.late_host [] (Single (UserFn 0%nat)) 5)
            _)) 3 _ _ _).
  - reflexivity.
  - reflexivity.
  - discriminate.
  - reflexivity.
Defined.

(** C1 as stated fails: an event whose timestamp is 0 carries a timestamp
    strictly earlier than an attached time of 5, and yet the handler is
    entered (with the event stamped anew). *)
Lemma zero_stamp_not_swallowed :
  let host := Demo.late_host in
  let rt := Demo.with_invoker host [] (Single (UserFn 0%nat)) 5 in
  let e := set_vts (Some 0) Demo.fresh_event in
  attached_at rt 0%nat = Some 5 /\ _vts e = Some 0 /\ 0 < 5 /\
  calls rt = [] /\
  calls (state_of (invoker_call 0%nat e rt)).2
  = [(0%nat, set_vts (Some 1000) Demo.fresh_event)] /\
  invoker_call 0%nat e rt <> Normal (e, rt).
Proof. repeat split. discriminate. Qed.

(** C9: an event whose timestamp field is present but 0 is treated as
    unstamped: whatever the invoker's attached time, the timestamp is
    overwritten with the current wall-clock time and the event is handed to
    the handlers; a single handler is entered with the newly stamped
    event. *)
Theorem zero_stamp_is_restamped {host : Host} (r : InvokerRef)
    (v : EventValue) (a : Z) (inst : option ComponentInstance)
    (e : Event) (rt : Runtime) :
  heap rt !! r = Some {| value := v; attached := a; instance := inst |} ->
  _vts e = Some 0 ->
  let stamped := set_vts (Some (wall_clock (reads rt))) e in
  invoker_call r e rt = deliver v inst stamped (set_reads (S (reads rt)) rt) /\
  (forall h, v = Single (UserFn h) ->
     exists s, invoker_call r e rt = Normal s /\
               calls s.2 = calls rt ++ [(h, stamped)]).
Proof.
  intros Hr Hv stamped.
  assert (invoker_call r e rt
          = deliver v inst stamped (set_reads (S (reads rt)) rt)) as Heq.
  { rewrite (invoker_call_unstamped r _ e rt Hr); [done|].
    unfold vts_falsy. by rewrite Hv. }
  split; [exact Heq|].
  intros h ->. rewrite Heq, deliver_single. eexists. split; [done|].
  by rewrite call_user_fn.
Qed.

Lemma zero_stamp_is_restamped_witness :
  invoker_call 0%nat (set_vts (Some 0) Demo.fresh_event)
    (Demo.with_invoker Demo.late_host [] (Single (UserFn 0%nat)) 5)
  = deliver (Single (UserFn 0%nat)) None
      (set_vts (Some 1000) Demo.fresh_event)
      (set_reads 1 (Demo.with_invoker Demo.late_host [] (Single (UserFn 0%nat)) 5)).
Proof.
  apply (proj1 (zero_stamp_is_restamped (host := Demo.late_host) 0%nat
           (Single (UserFn 0%nat)) 5 None (set_vts (Some 0) Demo.fresh_event)
           (Demo.with_invoker Demo.late_host [] (Single (UserFn 0%nat)) 5)
           eq_refl eq_refl)).
Defined.

(** *** Lists of handlers *)

(** C6: when the invoker's value is a list of handlers, the event's stop
    method is replaced by one that runs the original and also sets the
    private stopped mark; the handlers are called in list order, each behind
    a guard that skips it when the mark is set at its turn and enters it,
    with the event as it then is, when the mark is not set: so every
    handler of the list is entered, in list order, when none of them sets
    the mark.  (A value that is a single function leaves the event as it
    is.) *)
Theorem list_handlers_gated {host : Host} (fs : list Func)
    (inst : option ComponentInstance) (e : Event) (rt : Runtime) :
  let e1 := set_stopImmediatePropagation
              (PatchedStop (stopImmediatePropagation e)) e in
  patchStopImmediatePropagation e (Many fs) = (e1, Many (map Guarded fs)) /\
  do_stopImmediatePropagation e1
  = set_stopped true (call_stop (stopImmediatePropagation e) e1) /\
  _stopped (do_stopImmediatePropagation e1) = true /\
  (stopImmediatePropagation e = NativeStop ->
   stop_immediate_flag (do_stopImmediatePropagation e1) = true) /\
  (forall f, patchStopImmediatePropagation e (Single f) = (e, Single f)) /\
  deliver (Many fs) inst e rt
  = Normal (call_each inst NATIVE_EVENT_HANDLER (e1, rt) (map Guarded fs)) /\
  (forall f rest (e0 : Event) (rt0 : Runtime),
     call_each inst NATIVE_EVENT_HANDLER (e0, rt0) (map Guarded (f :: rest))
     = call_each inst NATIVE_EVENT_HANDLER
         (if _stopped e0 then (e0, rt0)
          else callWithErrorHandling f inst NATIVE_EVENT_HANDLER e0 rt0)
         (map Guarded rest)) /\
  (forall rest (e0 : Event) (rt0 : Runtime),
     _stopped e0 = true ->
     call_each inst NATIVE_EVENT_HANDLER (e0, rt0) (map Guarded rest)
     = (e0, rt0)) /\
  (exists s l, deliver (Many fs) inst e rt = Normal s /\
     calls s.2 = calls rt ++ l /\
     sublist (l.*1) (handler_of <$> fs)) /\
  (forall (h : Handler) (e0 : Event) (rt0 : Runtime),
     _stopped e0 = false ->
     let s := callWithErrorHandling (Guarded (UserFn h)) inst
                NATIVE_EVENT_HANDLER e0 rt0 in
     calls s.2 = calls rt0 ++ [(h, e0)] /\
     s.1 = (state_of (behave h e0 (user rt0))).1 /\
     user s.2 = (state_of (behave h e0 (user rt0))).2) /\
  (forall hs : list Handler,
     _stopped e = false ->
     (forall h e0 u, h ∈ hs -> _stopped e0 = false ->
                     _stopped (state_of (behave h e0 u)).1 = false) ->
     exists s, deliver (Many (UserFn <$> hs)) inst e rt = Normal s /\
               (calls s.2).*1 = (calls rt).*1 ++ hs).
Proof.
  intros e1.
  assert (forall (h : Handler) (e0 : Event) (rt0 : Runtime),
     _stopped e0 = false ->
     let s := callWithErrorHandling (Guarded (UserFn h)) inst
                NATIVE_EVENT_HANDLER e0 rt0 in
     calls s.2 = calls rt0 ++ [(h, e0)] /\
     s.1 = (state_of (behave h e0 (user rt0))).1 /\
     user s.2 = (state_of (behave h e0 (user rt0))).2) as Hguard.
  { intros h e0 rt0 Hrun s. unfold s. rewrite call_guarded_running by done.
    split; [apply call_user_fn|apply call_user_fn_result]. }
  assert (forall hs : list Handler,
     _stopped e = false ->
     (forall h e0 u, h ∈ hs -> _stopped e0 = false ->
                     _stopped (state_of (behave h e0 u)).1 = false) ->
     exists s, deliver (Many (UserFn <$> hs)) inst e rt = Normal s /\
               (calls s.2).*1 = (calls rt).*1 ++ hs) as Hall.
  { intros hs Hrun Hkeep. rewrite deliver_many. eexists.
    split; [reflexivity|].
    by rewrite (call_each_all_entered hs inst NATIVE_EVENT_HANDLER
                  (set_stopImmediatePropagation
                     (PatchedStop (stopImmediatePropagation e)) e, rt)). }
  split; [|split; [|split; [|split; [|split; [|split; [|split; [|split;
    [|split; [|split; [exact Hguard|exact Hall]]]]]]]]]].
  all: try reflexivity.
  - intros Hn. unfold do_stopImmediatePropagation. simpl. by rewrite Hn.
  - intros f rest e0 rt0. unfold call_each. simpl.
    destruct (_stopped e0) eqn:Hs.
    + by rewrite call_guarded_stopped.
    + by rewrite call_guarded_running.
  - intros rest e0 rt0 Hs. by apply call_each_stopped.
  - rewrite deliver_many. fold e1.
    destruct (call_each_in_order (map Guarded fs) inst NATIVE_EVENT_HANDLER
                (e1, rt)) as (l & Hl & Hsub).
    eexists _, l. split; [reflexivity|]. split; [exact Hl|].
    replace (handler_of <$> fs) with (handler_of <$> map Guarded fs);
      [done|].
    clear. induction fs as [|f fs IH]; simpl; [done|]. by f_equal.
Qed.

Lemma list_handlers_gated_witness :
  stop_immediate_flag
    (do_stopImmediatePropagation
       (set_stopImmediatePropagation (PatchedStop NativeStop) Demo.fresh_event))
  = true /\
  call_each (host := Demo.late_host) None Demo.NATIVE_EVENT_HANDLER
    (set_stopped true Demo.fresh_event, Demo.start Demo.late_host [])
    (map Guarded [UserFn 0%nat; UserFn 4%nat])
  = (set_stopped true Demo.fresh_event, Demo.start Demo.late_host []).
Proof.
  pose proof (list_handlers_gated (host := Demo.late_host)
                [UserFn 0%nat] None Demo.fresh_event
                (Demo.start Demo.late_host []))
    as (_ & _ & _ & Hflag & _ & _ & _ & Hskip & _).
  split.
  - apply Hflag. reflexivity.
  - apply Hskip. reflexivity.
Defined.

(** *** Errors thrown by handlers *)

(** C7: whatever a handler throws while an event is delivered through an
    invoker is caught inside the invoker call: the call always returns
    normally to whoever dispatched the event, and every error it adds to
    the shared error channel is tagged with the native-event-handler code.
    A single handler that throws has exactly its error reported; in a list,
    the error of a handler that throws at its turn is reported as well. *)
Theorem handler_errors_stay_inside {host : Host} (r : InvokerRef)
    (e : Event) (rt : Runtime) :
  (exists s, invoker_call r e rt = Normal s /\
     exists l, reported s.2 = reported rt ++ l /\
       Forall (fun rep => rep_type rep = NATIVE_EVENT_HANDLER) l) /\
  (forall (h : Handler) inst (e0 : Event) (rt0 : Runtime) x e' u',
     behave h e0 (user rt0) = Abrupt x (e', u') ->
     exists s, deliver (Single (UserFn h)) inst e0 rt0 = Normal s /\
       s.1 = e' /\ user s.2 = u' /\
       reported s.2
       = reported rt0 ++ [{| rep_err := x; rep_instance := inst;
                             rep_type := NATIVE_EVENT_HANDLER |}]) /\
  (forall (before : list Func) (f : Func) (after : list Func) inst
          (e0 : Event) (rt0 : Runtime) x s',
     let e1 := set_stopImmediatePropagation
                 (PatchedStop (stopImmediatePropagation e0)) e0 in
     let s1 := call_each inst NATIVE_EVENT_HANDLER (e1, rt0)
                 (map Guarded before) in
     apply_func (Guarded f) s1.1 s1.2 = Abrupt x s' ->
     exists s, deliver (Many (before ++ f :: after)) inst e0 rt0 = Normal s /\
       {| rep_err := x; rep_instance := inst;
          rep_type := NATIVE_EVENT_HANDLER |} ∈ reported s.2).
Proof.
  repeat split.
  - unfold invoker_call. destruct (heap rt !! r) as [inv|].
    2:{ eexists. split; [done|]. exists []. by rewrite app_nil_r. }
    assert (forall e0 rt0, reported rt0 = reported rt ->
              exists s, deliver (value inv) (instance inv) e0 rt0 = Normal s /\
                exists l, reported s.2 = reported rt ++ l /\
                  Forall (fun rep => rep_type rep = NATIVE_EVENT_HANDLER) l)
      as Hd.
    { intros e0 rt0 Hrep.
      destruct (deliver_normal (value inv) (instance inv) e0 rt0)
        as (s & Hs & _ & _ & (l & Hl & Hall)).
      exists s. split; [done|]. exists l. rewrite Hl, Hrep. split; [done|].
      eapply Forall_impl; [exact Hall|]. by intros rep [? _]. }
    destruct (vts_falsy e); [by apply Hd|].
    case_bool_decide; [|by apply Hd].
    eexists. split; [done|]. exists []. by rewrite app_nil_r.
  - intros h inst e0 rt0 x e' u' Hb. rewrite deliver_single.
    eexists. split; [reflexivity|].
    unfold callWithErrorHandling. simpl. by rewrite Hb.
  - intros before f after inst e0 rt0 x s' e1 s1 Hthrow.
    rewrite deliver_many. fold e1. eexists. split; [reflexivity|].
    unfold call_each. rewrite map_app, foldl_app. simpl.
    fold (call_each inst NATIVE_EVENT_HANDLER (e1, rt0) (map Guarded before)).
    fold s1.
    set (s2 := callWithErrorHandling (Guarded f) inst NATIVE_EVENT_HANDLER
                 s1.1 s1.2).
    pose proof (call_list_frame (map Guarded after) inst NATIVE_EVENT_HANDLER
                  s2.1 s2.2) as [_ [_ (l & Hl & _)]].
    unfold call_each in Hl. rewrite <- surjective_pairing in Hl.
    rewrite Hl. apply elem_of_app. left.
    unfold s2, callWithErrorHandling. rewrite Hthrow.
    destruct s' as [e' rt']. simpl. apply elem_of_app. right.
    by apply list_elem_of_singleton.
Qed.

Lemma handler_errors_stay_inside_witness :
  exists s,
    deliver (host := Demo.late_host) (Single (UserFn 2%nat)) None
      Demo.fresh_event (Demo.start Demo.late_host []) = Normal s /\
    reported s.2
    = [{| rep_err := 7%nat : @Err Demo.late_host; rep_instance := None;
          rep_type := Demo.NATIVE_EVENT_HANDLER : @ErrorCodes Demo.late_host |}].
Proof.
  destruct (proj1 (proj2 (handler_errors_stay_inside (host := Demo.late_host)
              0%nat Demo.fresh_event (Demo.start Demo.late_host [])))
              2%nat None Demo.fresh_event (Demo.start Demo.late_host [])
              7%nat Demo.fresh_event [] eq_refl)
    as (s & Hs & _ & _ & Hrep).
  exists s. split; [exact Hs|exact Hrep].
Defined.

(** *** The tick clock *)

Section ClockFacts.
Context {host : Host}.

Lemma getNow_cached (rt : Runtime) :
  cachedNow rt <> 0 -> getNow rt = (cachedNow rt, rt).
Proof.
  intros Hc. unfold getNow. by rewrite (proj2 (Z.eqb_neq _ _) Hc).
Qed.

Lemma getNow_uncached (rt : Runtime) :
  cachedNow rt = 0 ->
  getNow rt
  = (wall_clock (reads rt),
     {| cachedNow := wall_clock (reads rt);
        microtasks := microtasks rt ++ [ResetCachedNow];
        reads := S (reads rt); heap := heap rt; user := user rt;
        calls := calls rt; reported := reported rt;
        prototype_value := prototype_value rt |}).
Proof. intros Hc. unfold getNow. by rewrite Hc. Qed.

Lemma getNow_heap (rt : Runtime) : heap (getNow rt).2 = heap rt.
Proof. unfold getNow. by destruct (negb (cachedNow rt =? 0)). Qed.

(** Once a non-zero time is cached, [getNow] keeps returning it. *)
Lemma getNow_keeps (rt : Runtime) (t : Z) :
  cachedNow rt = t -> t <> 0 ->
  (getNow rt).1 = t /\ cachedNow (getNow rt).2 = t.
Proof. intros <- Hz. by rewrite getNow_cached. Qed.

Lemma createInvoker_eq v inst (rt : Runtime) :
  createInvoker v inst rt
  = (length (heap rt),
     set_heap (heap rt ++ [{| value := v; attached := (getNow rt).1;
                              instance := inst |}]) (getNow rt).2).
Proof.
  unfold createInvoker. destruct (getNow rt) as [now rt1] eqn:E. simpl.
  by rewrite <- (getNow_heap rt), E.
Qed.

Lemma flush_resets (rt : Runtime) (q : list Microtask) :
  microtasks rt = q ++ [ResetCachedNow] ->
  cachedNow (flush_microtasks rt) = 0.
Proof.
  intros Hq. unfold flush_microtasks. by rewrite Hq, foldl_app.
Qed.

Lemma keeps_attached_refl h : keeps_attached h h.
Proof. by split. Qed.

Lemma keeps_attached_trans h1 h2 h3 :
  keeps_attached h1 h2 -> keeps_attached h2 h3 -> keeps_attached h1 h3.
Proof. intros [L1 K1] [L2 K2]. split; [lia|auto]. Qed.

Lemma keeps_attached_app h inv : keeps_attached h (h ++ [inv]).
Proof.
  split; [rewrite length_app; lia|].
  intros r a Hr. destruct (h !! r) as [i|] eqn:E; [|done].
  by rewrite (lookup_app_l_Some _ _ _ _ E).
Qed.

Lemma keeps_attached_alter h v r : keeps_attached h (alter (set_value v) r h).
Proof.
  split; [by rewrite length_alter|].
  intros r' a Hr. rewrite list_lookup_alter. case_decide; [subst|done].
  by destruct (h !! r').
Qed.

Lemma createInvoker_step v inst (rt : Runtime) (t : Z) :
  cachedNow rt = t -> t <> 0 ->
  cachedNow (createInvoker v inst rt).2 = t /\
  keeps_attached (heap rt) (heap (createInvoker v inst rt).2).
Proof.
  intros Hc Hz. rewrite createInvoker_eq. simpl.
  split; [by apply getNow_keeps|apply keeps_attached_app].
Qed.

(** Reading the cache object. *)
Lemma read_cache_own (rt : Runtime) invokers rawName r :
  slot invokers rawName = Some r ->
  read_cache rt invokers rawName = ReadInvoker r.
Proof.
  unfold slot, read_cache. by destruct (invokers !! rawName) as [[r'|]|];
    simpl; intros [= ->].
Qed.

Lemma read_cache_plain (rt : Runtime) (el : Element) rawName :
  reads_inherited rt el rawName = false ->
  read_cache rt (default ∅ (vei el)) rawName
  = match slot (default ∅ (vei el)) rawName with
    | Some r => ReadInvoker r
    | None => ReadUndefined
    end.
Proof.
  unfold reads_inherited, read_cache, slot.
  destruct (default ∅ (vei el) !! rawName) as [[r|]|]; simpl; try done.
  by intros ->.
Qed.

Lemma read_cache_inherited (rt : Runtime) (el : Element) rawName :
  reads_inherited rt el rawName = true ->
  read_cache rt (default ∅ (vei el)) rawName = ReadInherited rawName /\
  default ∅ (vei el) !! rawName = None /\
  slot (default ∅ (vei el)) rawName = None.
Proof.
  unfold reads_inherited, read_cache, slot.
  destruct (default ∅ (vei el) !! rawName) as [[r|]|]; simpl; try done.
  by intros ->.
Qed.

Lemma assign_undefined_plain (rt : Runtime) (el : Element) rawName :
  reads_inherited rt el rawName = false ->
  assign_undefined (default ∅ (vei el)) rawName
  = <[rawName := None]> (default ∅ (vei el)).
Proof.
  unfold reads_inherited, assign_undefined, inherits. intros Hplain.
  destruct (bool_decide (rawName = "__proto__")) eqn:Hp; [|done].
  apply bool_decide_eq_true in Hp as ->.
  destruct (bool_decide (default ∅ (vei el) !! "__proto__" = None)); [|done].
  simpl in Hplain. discriminate Hplain.
Qed.

(** The branches of [patchEvent]. *)
Lemma patchEvent_update_eq (el : Element) rawName r v (rt : Runtime) :
  slot (default ∅ (vei el)) rawName = Some r ->
  patchEvent el rawName (Some v) rt
  = Normal (set_vei (Some (default ∅ (vei el))) el,
            set_heap (alter (set_value v) r (heap rt)) rt).
Proof.
  intros Hs. unfold patchEvent. by rewrite (read_cache_own rt _ _ r Hs).
Qed.

Lemma patchEvent_create_eq (el : Element) rawName v (rt : Runtime) :
  reads_inherited rt el rawName = false ->
  slot (default ∅ (vei el)) rawName = None ->
  patchEvent el rawName (Some v) rt
  = let c := createInvoker v None rt in
    Normal
      ({| vei := Some (<[rawName := Some c.1]> (default ∅ (vei el)));
          listeners :=
            if decide (listener_for rawName c.1 ∈ listeners el)
            then listeners el
            else listeners el ++ [listener_for rawName c.1];
          dom_calls :=
            dom_calls el ++ [AddCall (parseName rawName).1 c.1 None] |},
       c.2).
Proof.
  intros Hplain Hs. unfold patchEvent.
  rewrite (read_cache_plain rt el rawName Hplain), Hs.
  by destruct (createInvoker v None rt) as [r rt1].
Qed.

Lemma patchEvent_remove_eq (el : Element) rawName (rt : Runtime) :
  reads_inherited rt el rawName = false ->
  patchEvent el rawName None rt
  = Normal
      ({| vei := Some (<[rawName := None]> (default ∅ (vei el)));
          listeners :=
            match slot (default ∅ (vei el)) rawName with
            | None => listeners el
            | Some r =>
                filter (fun l => l <> listener_for rawName r) (listeners el)
            end;
          dom_calls :=
            dom_calls el ++
            [RemoveCall (parseName rawName).1
               (slot (default ∅ (vei el)) rawName) None] |},
       rt).
Proof.
  intros Hplain. unfold patchEvent.
  rewrite (read_cache_plain rt el rawName Hplain).
  rewrite (assign_undefined_plain rt el rawName Hplain).
  by destruct (slot (default ∅ (vei el)) rawName).
Qed.

Lemma patchEvent_inherited_bind_eq (el : Element) rawName v (rt : Runtime) :
  reads_inherited rt el rawName = true ->
  patchEvent el rawName (Some v) rt
  = Normal (set_vei (Some (default ∅ (vei el))) el,
            write_inherited_value rawName v rt).
Proof.
  intros Hinh. unfold patchEvent.
  by rewrite (proj1 (read_cache_inherited rt el rawName Hinh)).
Qed.

Lemma patchEvent_inherited_unbind_eq (el : Element) rawName (rt : Runtime) :
  reads_inherited rt el rawName = true ->
  patchEvent el rawName None rt
  = Normal
      ({| vei := Some (assign_undefined (default ∅ (vei el)) rawName);
          listeners := listeners el;
          dom_calls :=
            dom_calls el ++
            [RemoveInheritedCall (parseName rawName).1 rawName None] |},
       rt).
Proof.
  intros Hinh. unfold patchEvent.
  by rewrite (proj1 (read_cache_inherited rt el rawName Hinh)).
Qed.

(** What a write on an inherited member leaves alone. *)
Lemma write_inherited_value_frame key v (rt : Runtime) :
  let rt' := write_inherited_value key v rt in
  cachedNow rt' = cachedNow rt /\ microtasks rt' = microtasks rt /\
  reads rt' = reads rt /\ heap rt' = heap rt /\ calls rt' = calls rt /\
  user rt' = user rt /\ reported rt' = reported rt.
Proof.
  unfold write_inherited_value. by destruct (bool_decide (key = "__proto__")).
Qed.

Lemma patchEvent_step el rawName nextValue (rt : Runtime) (t : Z) :
  cachedNow rt = t -> t <> 0 ->
  let rt' := (state_of (patchEvent el rawName nextValue rt)).2 in
  cachedNow rt' = t /\ keeps_attached (heap rt) (heap rt').
Proof.
  intros Hc Hz.
  destruct (reads_inherited rt el rawName) eqn:Hinh.
  { destruct nextValue as [v|].
    - rewrite (patchEvent_inherited_bind_eq el rawName v rt Hinh). simpl.
      destruct (write_inherited_value_frame rawName v rt)
        as (H1 & _ & _ & H4 & _).
      rewrite H1, H4. split; [done|apply keeps_attached_refl].
    - rewrite (patchEvent_inherited_unbind_eq el rawName rt Hinh). simpl.
      split; [done|apply keeps_attached_refl]. }
  destruct nextValue as [v|];
    [|rewrite (patchEvent_remove_eq el rawName rt Hinh); simpl;
      split; [done|apply keeps_attached_refl]].
  destruct (slot (default ∅ (vei el)) rawName) as [r|] eqn:Hs.
  - rewrite (patchEvent_update_eq el rawName r v rt Hs). simpl.
    split; [done|apply keeps_attached_alter].
  - rewrite (patchEvent_create_eq el rawName v rt Hinh Hs). simpl.
    by apply createInvoker_step.
Qed.

Lemma run_step_keeps (rt : Runtime) (st : SyncStep) (t : Z) :
  cachedNow rt = t -> t <> 0 ->
  cachedNow (run_step rt st) = t /\
  keeps_attached (heap rt) (heap (run_step rt st)).
Proof.
  intros Hc Hz. destruct st as [|v inst|el rawName nextValue|r e]; simpl.
  - split; [done|apply keeps_attached_refl].
  - by apply createInvoker_step.
  - by apply patchEvent_step.
  - destruct (invoker_call_normal r e rt) as (s & -> & Hcn & _ & Hh & _).
    simpl. rewrite Hcn, Hh. split; [done|apply keeps_attached_refl].
Qed.

Lemma run_segment_keeps (steps : list SyncStep) (rt : Runtime) (t : Z) :
  cachedNow rt = t -> t <> 0 ->
  cachedNow (run_segment steps rt) = t /\
  keeps_attached (heap rt) (heap (run_segment steps rt)).
Proof.
  revert rt. induction steps as [|st steps IH]; intros rt Hc Hz.
  - split; [done|apply keeps_attached_refl].
  - destruct (run_step_keeps rt st t Hc Hz) as [Hc1 K1].
    destruct (IH (run_step rt st) Hc1 Hz) as [Hc2 K2].
    split; [exact Hc2|]. eapply keeps_attached_trans; eauto.
Qed.

End ClockFacts.

(** C4, as amended: [getNow] returns the cached timestamp when one is cached
    (a non-zero [cachedNow]); otherwise it reads the wall clock, caches the
    reading and queues a microtask that resets the cache, so that the cache
    is empty again once the queue has run.  Consequently two invokers
    created in the same synchronous segment, whatever else happens in
    between, have the same attached time, provided a timestamp was already
    cached or the wall-clock reading that opens the segment is not 0 (a
    reading of 0 cannot be told from an empty cache). *)
Theorem tick_clock_shared {host : Host} (rt : Runtime)
    (v1 v2 : EventValue) (i1 i2 : option ComponentInstance)
    (steps : list SyncStep) :
  (cachedNow rt <> 0 -> getNow rt = (cachedNow rt, rt)) /\
  (cachedNow rt = 0 ->
     (getNow rt).1 = wall_clock (reads rt) /\
     cachedNow (getNow rt).2 = wall_clock (reads rt) /\
     microtasks (getNow rt).2 = microtasks rt ++ [ResetCachedNow] /\
     cachedNow (flush_microtasks (getNow rt).2) = 0) /\
  (cachedNow rt <> 0 \/ wall_clock (reads rt) <> 0 ->
     let c1 := createInvoker v1 i1 rt in
     let c2 := createInvoker v2 i2 (run_segment steps c1.2) in
     c1.1 <> c2.1 /\
     attached_at c2.2 c1.1 = Some (getNow rt).1 /\
     attached_at c2.2 c2.1 = Some (getNow rt).1).
Proof.
  split; [apply getNow_cached|]. split.
  - intros Hc. rewrite (getNow_uncached rt Hc). simpl.
    repeat split. by eapply flush_resets.
  - intros Hnz c1 c2.
    set (t := (getNow rt).1).
    assert (t <> 0 /\ cachedNow (getNow rt).2 = t) as [Ht Hc1].
    { unfold t. destruct (decide (cachedNow rt = 0)) as [Hz|Hz].
      - rewrite (getNow_uncached rt Hz). simpl. split; [|done].
        by destruct Hnz.
      - by rewrite (getNow_cached rt Hz). }
    assert (attached_at c1.2 c1.1 = Some t /\ cachedNow c1.2 = t /\
            c1.1 = length (heap rt) /\
            length (heap c1.2) = S (length (heap rt))) as (Ha1 & Hc & Hr1 & Hl1).
    { unfold c1. rewrite createInvoker_eq. simpl. unfold attached_at. simpl.
      repeat split; [|done|].
      - by rewrite list_lookup_middle.
      - rewrite length_app. simpl. lia. }
    destruct (run_segment_keeps steps c1.2 t Hc Ht) as [Hc2 [Hlen K]].
    set (rt2 := run_segment steps c1.2) in *.
    assert (c2 = (length (heap rt2),
                  set_heap (heap rt2 ++ [{| value := v2; attached := t;
                                            instance := i2 |}]) rt2)) as ->.
    { unfold c2. fold rt2. rewrite createInvoker_eq.
      rewrite (getNow_cached rt2) by congruence. simpl. by rewrite Hc2. }
    simpl. repeat split.
    + lia.
    + apply (proj2 (keeps_attached_app (heap rt2) _)). by apply K.
    + unfold attached_at. simpl. by rewrite list_lookup_middle.
Qed.

Lemma tick_clock_shared_witness :
  let rt := Demo.start Demo.late_host [] in
  let c1 := createInvoker (Single (UserFn 0%nat)) None rt in
  let c2 := createInvoker (Single (UserFn 4%nat)) None
              (run_segment [StepDateNow; StepDateNow] c1.2) in
  c1.1 <> c2.1 /\
  attached_at c2.2 c1.1 = Some (getNow rt).1 /\
  attached_at c2.2 c2.1 = Some (getNow rt).1.
Proof.
  intros rt.
  apply (proj2 (proj2 (tick_clock_shared (host := Demo.late_host) rt
           (Single (UserFn 0%nat)) (Single (UserFn 4%nat)) None None
           [StepDateNow; StepDateNow]))).
  right. vm_compute. discriminate.
Defined.

(** C4 as stated fails when the wall clock reads 0: the reading is cached
    as 0, which is the empty cache, so the next invoker created in the same
    synchronous segment (the reset microtasks are still queued) reads the
    clock again and gets another attached time. *)
Lemma epoch_reading_splits_tick :
  let rt := Demo.start Demo.epoch_host [] in
  let c1 := createInvoker (Single (UserFn 0%nat)) None rt in
  let c2 := createInvoker (Single (UserFn 4%nat)) None c1.2 in
  microtasks c2.2 = [ResetCachedNow; ResetCachedNow] /\
  attached_at c2.2 c1.1 = Some 0 /\
  attached_at c2.2 c2.1 = Some 1 /\
  attached_at c2.2 c1.1 <> attached_at c2.2 c2.1.
Proof. repeat split. discriminate. Qed.

(** *** Patching an element *)

Section PatchFacts.
Context {host : Host}.

Lemma getNow_records (rt : Runtime) :
  calls (getNow rt).2 = calls rt /\ user (getNow rt).2 = user rt /\
  reported (getNow rt).2 = reported rt.
Proof. unfold getNow. by destruct (negb (cachedNow rt =? 0)). Qed.

Lemma set_vei_same (el : Element) m : vei el = Some m -> set_vei (Some m) el = el.
Proof. intros <-. by destruct el. Qed.

Lemma slot_insert (m : gmap string (option InvokerRef)) rawName o :
  slot (<[rawName := o]> m) rawName = o.
Proof. unfold slot. by rewrite lookup_insert_eq. Qed.

Lemma filter_filter_comm {A} (P Q : A -> Prop)
    `{!forall x, Decision (P x)} `{!forall x, Decision (Q x)} (l : list A) :
  filter P (filter Q l) = filter Q (filter P l).
Proof.
  induction l as [|x l IH]; [done|].
  rewrite !filter_cons.
  destruct (decide (Q x)), (decide (P x));
    rewrite ?filter_cons, ?decide_True, ?decide_False by done; by f_equal.
Qed.

(** With no listener of the event's type, a dispatch does nothing. *)
Lemma dispatch_no_listener (el : Element) event (e : Event) (rt : Runtime) :
  filter (fun l => l_type l = event) (listeners el) = [] ->
  dispatchEvent el event e rt = (e, rt, []).
Proof. intros Hf. unfold dispatchEvent. by rewrite Hf. Qed.

(** With the one listener of the event's type being an invoker that holds
    a single user function, an unstamped event reaches that function. *)
Lemma dispatch_single_listener (el : Element) event (e : Event)
    (rt : Runtime) (l : Listener) (inv : Invoker) (h : Handler) :
  filter (fun l => l_type l = event) (listeners el) = [l] ->
  heap rt !! l_callback l = Some inv -> value inv = Single (UserFn h) ->
  _vts e = None -> stop_immediate_flag e = false ->
  calls (dispatchEvent el event e rt).1.2
  = calls rt ++ [(h, set_vts (Some (wall_clock (reads rt))) e)].
Proof.
  intros Hf Hh Hv Hts Hflag. unfold dispatchEvent. rewrite Hf. simpl.
  rewrite Hflag.
  rewrite (invoker_call_unstamped _ inv e rt Hh)
    by (unfold vts_falsy; by rewrite Hts).
  rewrite Hv, deliver_single.
  destruct (callWithErrorHandling _ _ _ _ _) as [e' rt'] eqn:E. simpl.
  change rt' with (e', rt').2. rewrite <- E. by rewrite call_user_fn.
Qed.

End PatchFacts.

Section InheritedFacts.
Context {host : Host}.

Lemma reads_inherited_new (rt : Runtime) rawName :
  inherits rt rawName = false -> reads_inherited rt new_element rawName = false.
Proof. intros H. unfold reads_inherited. rewrite H. apply andb_false_r. Qed.

Lemma reads_inherited_own (rt : Runtime) (el : Element) rawName :
  default ∅ (vei el) !! rawName <> None ->
  reads_inherited rt el rawName = false.
Proof.
  intros H. unfold reads_inherited. by rewrite bool_decide_eq_false_2.
Qed.

Lemma reads_inherited_slot (rt : Runtime) (el : Element) rawName r :
  slot (default ∅ (vei el)) rawName = Some r ->
  reads_inherited rt el rawName = false.
Proof.
  intros Hs. apply reads_inherited_own. intros Hn.
  unfold slot in Hs. by rewrite Hn in Hs.
Qed.

Lemma reads_inherited_key (rt : Runtime) (el : Element) key :
  key ∈ object_prototype_keys -> default ∅ (vei el) !! key = None ->
  reads_inherited rt el key = true.
Proof.
  intros Hk Hn. unfold reads_inherited, inherits.
  by rewrite (bool_decide_eq_true_2 _ Hn), (bool_decide_eq_true_2 _ Hk).
Qed.

End InheritedFacts.



(** X16: with an invoker cached under the raw name and a non-empty new
    value, [patchEvent] only replaces the invoker's value: the element
    comes back as it was (same cache, same listener list, no call on either
    listener method), the invoker keeps its attached time, and nothing else
    in the store or the clock moves.  Where the raw name reads as
    [undefined] (nothing cached, and not a name inherited from
    [Object.prototype]), two patches in a row, with [fn1] then [fn2], make
    one [addEventListener] call and no [removeEventListener] call, and
    leave [fn2] as the value of the one invoker; on a new element the next
    event of that type reaches [fn2] and not [fn1]. *)
Theorem patchEvent_updates_in_place {host : Host} (el : Element)
    (rawName : string) (rt : Runtime) :
  (forall m r inv v,
     vei el = Some m -> slot m rawName = Some r -> heap rt !! r = Some inv ->
     exists rt',
       patchEvent el rawName (Some v) rt = Normal (el, rt') /\
       heap rt' !! r
       = Some {| value := v; attached := attached inv;
                 instance := instance inv |} /\
       (forall r', r' <> r -> heap rt' !! r' = heap rt !! r') /\
       length (heap rt') = length (heap rt) /\
       cachedNow rt' = cachedNow rt /\ microtasks rt' = microtasks rt /\
       reads rt' = reads rt /\ calls rt' = calls rt) /\
  (forall fn1 fn2,
     reads_inherited rt el rawName = false ->
     slot (default ∅ (vei el)) rawName = None ->
     let r := length (heap rt) in
     exists el1 rt1 el2 rt2,
       patchEvent el rawName (Some fn1) rt = Normal (el1, rt1) /\
       patchEvent el1 rawName (Some fn2) rt1 = Normal (el2, rt2) /\
       dom_calls el2
       = dom_calls el ++ [AddCall (parseName rawName).1 r None] /\
       slot (default ∅ (vei el2)) rawName = Some r /\
       listeners el2 = listeners el1 /\
       (listener_for rawName r ∉ listeners el ->
        listeners el2 = listeners el ++ [listener_for rawName r]) /\
       value_at rt2 r = Some fn2 /\
       attached_at rt1 r = Some (getNow rt).1 /\
       attached_at rt2 r = Some (getNow rt).1) /\
  (forall h1 h2 (e : Event),
     inherits rt rawName = false ->
     _vts e = None -> stop_immediate_flag e = false ->
     let s1 := state_of (patchEvent new_element rawName
                           (Some (Single (UserFn h1))) rt) in
     let s2 := state_of (patchEvent s1.1 rawName
                           (Some (Single (UserFn h2))) s1.2) in
     listeners s2.1 = [listener_for rawName (length (heap rt))] /\
     calls (dispatchEvent s2.1 (parseName rawName).1 e s2.2).1.2
     = calls rt ++ [(h2, set_vts (Some (wall_clock (reads s2.2))) e)]).
Proof.
  assert (forall fn1 fn2 (el0 : Element),
     reads_inherited rt el0 rawName = false ->
     slot (default ∅ (vei el0)) rawName = None ->
     let r := length (heap rt) in
     let c := createInvoker fn1 None rt in
     let el1 :=
       {| vei := Some (<[rawName := Some r]> (default ∅ (vei el0)));
          listeners :=
            if decide (listener_for rawName r ∈ listeners el0)
            then listeners el0
            else listeners el0 ++ [listener_for rawName r];
          dom_calls :=
            dom_calls el0 ++ [AddCall (parseName rawName).1 r None] |} in
     patchEvent el0 rawName (Some fn1) rt = Normal (el1, c.2) /\
     patchEvent el1 rawName (Some fn2) c.2
     = Normal (el1, set_heap (alter (set_value fn2) r (heap c.2)) c.2) /\
     heap c.2 = heap rt ++ [{| value := fn1; attached := (getNow rt).1;
                               instance := None |}]) as Htwo.
  { intros fn1 fn2 el0 Hplain Hs r c el1.
    assert (c = (r, set_heap (heap rt ++ [{| value := fn1;
                   attached := (getNow rt).1; instance := None |}])
                   (getNow rt).2)) as Hc by apply createInvoker_eq.
    split; [|split].
    - rewrite (patchEvent_create_eq el0 rawName fn1 rt Hplain Hs). fold c.
      by rewrite Hc.
    - rewrite (patchEvent_update_eq el1 rawName r fn2 c.2).
      + by rewrite set_vei_same.
      + simpl. apply slot_insert.
    - by rewrite Hc. }
  split; [|split].
  - intros m r inv v Hm Hs Hr.
    rewrite (patchEvent_update_eq el rawName r v rt) by (by rewrite Hm).
    rewrite Hm. simpl. rewrite (set_vei_same el m Hm).
    eexists. split; [reflexivity|]. simpl.
    repeat split; try done.
    + by rewrite list_lookup_alter_eq, Hr.
    + intros r' Hne. by rewrite list_lookup_alter_ne.
    + by rewrite length_alter.
  - intros fn1 fn2 Hplain Hs r.
    destruct (Htwo fn1 fn2 el Hplain Hs) as (H1 & H2 & Hheap).
    eexists _, _, _, _. split; [exact H1|]. split; [exact H2|].
    simpl. repeat split.
    + apply slot_insert.
    + intros Hnot. by rewrite decide_False.
    + unfold value_at. simpl. rewrite list_lookup_alter_eq, Hheap.
      by rewrite list_lookup_middle.
    + unfold attached_at. rewrite Hheap. by rewrite list_lookup_middle.
    + unfold attached_at. simpl. rewrite list_lookup_alter_eq, Hheap.
      by rewrite list_lookup_middle.
  - intros h1 h2 e Hinh Hts Hflag.
    destruct (Htwo (Single (UserFn h1)) (Single (UserFn h2)) new_element
                (reads_inherited_new rt rawName Hinh) eq_refl)
      as (H1 & H2 & Hheap).
    intros s1 s2. unfold s2, s1. rewrite H1. cbn [state_of fst snd].
    rewrite H2. cbn [state_of fst snd listeners new_element].
    split; [done|].
    set (rt1 := (createInvoker (Single (UserFn h1)) None rt).2) in *.
    set (rt2 := set_heap _ rt1).
    assert (calls rt = calls rt2) as ->.
    { unfold rt2, rt1. rewrite createInvoker_eq. simpl.
      symmetry. apply getNow_records. }
    eapply (dispatch_single_listener _ _ e rt2
              (listener_for rawName (length (heap rt)))
              {| value := Single (UserFn h2); attached := (getNow rt).1;
                 instance := None |}); try done.
    + simpl. rewrite filter_cons, decide_True by done. done.
    + simpl. rewrite list_lookup_alter_eq, Hheap.
      by rewrite list_lookup_middle.
Qed.

Lemma patchEvent_updates_in_place_witness :
  let host := Demo.late_host in
  let el := {| vei := Some {[ "onClick" := Some 0%nat ]};
               listeners := [listener_for "onClick" 0%nat];
               dom_calls := [AddCall "click" 0%nat None] |} in
  let rt := Demo.with_invoker host [] (Single (UserFn 0%nat)) 5 in
  exists rt',
    patchEvent el "onClick" (Some (Single (UserFn 4%nat))) rt
    = Normal (el, rt') /\
    heap rt' !! 0%nat
    = Some {| value := Single (UserFn 4%nat); attached := 5;
              instance := None |}.
Proof.
  intros host el rt.
  destruct (proj1 (patchEvent_updates_in_place (host := host) el "onClick" rt)
              {[ "onClick" := Some 0%nat ]} 0%nat
              {| value := Single (UserFn 0%nat); attached := 5;
                 instance := None |}
              (Single (UserFn 4%nat)) eq_refl eq_refl eq_refl)
    as (rt' & H1 & H2 & _).
  exists rt'. split; [exact H1|exact H2].
Defined.

(** C3, as amended: with an invoker cached for the raw name, [patchEvent]
    with an empty value calls [removeEventListener] with the parsed event
    name, the cached invoker and the parsed options, and sets the cache slot
    to [undefined]; the invoker's listener is gone from the element, so a
    later dispatch walks the element's other listeners only: it no longer
    fires that invoker (on an element whose cache and listeners agree no
    listener calls it), it enters no handler at all when the invoker was
    the element's one listener of that type, and handlers bound under
    another raw name for the same event still run.  On a new element,
    binding and then unbinding a raw name that is not inherited leaves no
    listener, and the next event enters no handler. *)
Theorem patchEvent_detaches {host : Host} (el : Element)
    (m : gmap string (option InvokerRef)) (rawName : string)
    (r : InvokerRef) (rt : Runtime) :
  vei el = Some m -> slot m rawName = Some r ->
  let name := (parseName rawName).1 in
  exists el',
    patchEvent el rawName None rt = Normal (el', rt) /\
    dom_calls el'
    = dom_calls el ++ [RemoveCall name (Some r) (parseName rawName).2] /\
    vei el' = Some (<[rawName := None]> m) /\
    slot (<[rawName := None]> m) rawName = None /\
    (listener_for rawName r ∉ listeners el') /\
    (forall l, l <> listener_for rawName r ->
               (l ∈ listeners el' <-> l ∈ listeners el)) /\
    (forall event (e : Event),
       dispatchEvent el' event e rt
       = foldl fire_listener (e, rt, [])
           (filter (fun l => l <> listener_for rawName r)
              (filter (fun l => l_type l = event) (listeners el)))) /\
    (consistent el rt -> forall l, l ∈ listeners el' -> l_callback l <> r) /\
    (forall e : Event,
       filter (fun l => l_type l = name) (listeners el)
       = [listener_for rawName r] ->
       dispatchEvent el' name e rt = (e, rt, [])) /\
    (forall v (e : Event) (rt0 : Runtime),
       inherits rt0 rawName = false ->
       let s1 := state_of (patchEvent new_element rawName (Some v) rt0) in
       let s2 := state_of (patchEvent s1.1 rawName None s1.2) in
       listeners s1.1 = [listener_for rawName (length (heap rt0))] /\
       listeners s2.1 = [] /\
       dispatchEvent s2.1 name e s2.2 = (e, s1.2, [])).
Proof.
  intros Hm Hs name.
  assert (forall r0 : InvokerRef,
            filter (fun l => l <> listener_for rawName r0)
                   [listener_for rawName r0] = []) as Hgone.
  { intros r0. rewrite filter_cons, decide_False; [done|].
    intros H. by apply H. }
  assert (forall v (e : Event) (rt0 : Runtime),
       inherits rt0 rawName = false ->
       let s1 := state_of (patchEvent new_element rawName (Some v) rt0) in
       let s2 := state_of (patchEvent s1.1 rawName None s1.2) in
       listeners s1.1 = [listener_for rawName (length (heap rt0))] /\
       listeners s2.1 = [] /\
       dispatchEvent s2.1 name e s2.2 = (e, s1.2, [])) as Hfresh.
  { intros v e rt0 Hinh s1 s2. unfold s2, s1.
    rewrite (patchEvent_create_eq new_element rawName v rt0
               (reads_inherited_new rt0 rawName Hinh) eq_refl).
    cbn [state_of fst snd].
    rewrite patchEvent_remove_eq
      by (apply reads_inherited_own; simpl; by rewrite lookup_insert_eq).
    cbn [state_of fst snd listeners vei default from_option id new_element].
    rewrite slot_insert, createInvoker_eq.
    cbn [fst snd decide]. rewrite decide_False by apply not_elem_of_nil.
    cbn [app]. rewrite Hgone. split; [done|]. split; [done|].
    by apply dispatch_no_listener. }
  assert (slot (default ∅ (vei el)) rawName = Some r) as Hs'
    by (by rewrite Hm).
  rewrite (patchEvent_remove_eq el rawName rt
             (reads_inherited_slot rt el rawName r Hs')), Hm.
  simpl. rewrite Hs.
  eexists. split; [reflexivity|]. simpl.
  split; [done|]. split; [done|]. split; [apply slot_insert|].
  split; [|split; [|split; [|split; [|split]]]].
  - rewrite list_elem_of_filter. by intros [Hne _].
  - intros l Hne. rewrite list_elem_of_filter.
    split; [by intros [_ ?]|by intros ?].
  - intros event e. unfold dispatchEvent. simpl.
    by rewrite filter_filter_comm.
  - intros (_ & Hl & _ & Hi) l Hin Hcb.
    apply list_elem_of_filter in Hin as [Hne Hin].
    destruct (Hl l Hin) as [_ (raw & Hraw & Heq)]. apply Hne.
    rewrite Hcb in Hraw, Heq. rewrite Heq. f_equal.
    apply (Hi raw rawName r Hraw). unfold cache_of. by rewrite Hm.
  - intros e Hone. apply dispatch_no_listener. simpl.
    rewrite filter_filter_comm. fold name. by rewrite Hone, Hgone.
  - exact Hfresh.
Qed.

Lemma patchEvent_detaches_witness :
  let host := Demo.late_host in
  let el := {| vei := Some {[ "onClick" := Some 0%nat ]};
               listeners := [listener_for "onClick" 0%nat];
               dom_calls := [AddCall "click" 0%nat None] |} in
  let rt := Demo.with_invoker host [] (Single (UserFn 0%nat)) 5 in
  exists el',
    patchEvent el "onClick" None rt = Normal (el', rt) /\
    dom_calls el'
    = [AddCall "click" 0%nat None; RemoveCall "click" (Some 0%nat) None] /\
    dispatchEvent el' "click" Demo.fresh_event rt = (Demo.fresh_event, rt, []).
Proof.
  intros host el rt.
  destruct (patchEvent_detaches (host := host) el
              {[ "onClick" := Some 0%nat ]} "onClick" 0%nat rt
              eq_refl eq_refl)
    as (el' & H1 & H2 & _ & _ & _ & _ & _ & _ & H3 & _).
  exists el'. split; [exact H1|]. split; [exact H2|].
  apply H3. reflexivity.
Defined.

(** C3 as stated fails: with "onClick" and "on:click" both bound on one
    element (both parse to "click"), unbinding "onClick" detaches its
    listener, and yet the next click enters a handler, the one bound under
    "on:click". *)
Lemma other_raw_name_still_fires :
  let host := Demo.late_host in
  let s1 := state_of (patchEvent new_element "onClick"
                        (Some (Single (UserFn 0%nat)))
                        (Demo.start host [])) in
  let s2 := state_of (patchEvent s1.1 "on:click"
                        (Some (Single (UserFn 4%nat))) s1.2) in
  let s3 := state_of (patchEvent s2.1 "onClick" None s2.2) in
  slot (cache_of s2.1) "onClick" = Some 0%nat /\
  (parseName "onClick").1 = "click" /\
  dom_calls s3.1
  = [AddCall "click" 0%nat None; AddCall "click" 1%nat None;
     RemoveCall "click" (Some 0%nat) None] /\
  calls s3.2 = [] /\
  (calls (dispatchEvent s3.1 "click" Demo.fresh_event s3.2).1.2).*1
  = [4%nat].
Proof. repeat split. Qed.



(** X17: with no invoker cached for the raw name, and the name not one
    inherited from [Object.prototype] (no cache at all, no entry, or an
    entry that is [undefined]), [patchEvent] with an empty value still
    takes the removal branch: it calls [removeEventListener] with an
    [undefined] handler, which leaves the listeners as they are, sets the
    cache slot to [undefined] and returns normally, the runtime untouched;
    doing it again leaves the cache and the listeners the same. *)
Theorem patchEvent_unbind_absent {host : Host} (el : Element)
    (rawName : string) (rt : Runtime) :
  reads_inherited rt el rawName = false ->
  slot (default ∅ (vei el)) rawName = None ->
  let name := (parseName rawName).1 in
  let cache := <[rawName := None]> (default ∅ (vei el)) in
  let el1 := {| vei := Some cache; listeners := listeners el;
                dom_calls := dom_calls el ++ [RemoveCall name None None] |} in
  let el2 := {| vei := Some cache; listeners := listeners el;
                dom_calls := dom_calls el1 ++ [RemoveCall name None None] |} in
  patchEvent el rawName None rt = Normal (el1, rt) /\
  cache !! rawName = Some None /\
  patchEvent el1 rawName None rt = Normal (el2, rt) /\
  vei el2 = vei el1 /\ listeners el2 = listeners el.
Proof.
  intros Hplain Hs name cache el1 el2.
  split; [|split; [|split]].
  - rewrite (patchEvent_remove_eq el rawName rt Hplain). by rewrite Hs.
  - unfold cache. apply lookup_insert_eq.
  - rewrite patchEvent_remove_eq
      by (apply reads_inherited_own; simpl; unfold cache;
          by rewrite lookup_insert_eq).
    unfold el2, el1.
    cbn [vei listeners dom_calls default from_option id].
    unfold cache. by rewrite slot_insert, insert_insert_eq.
  - done.
Qed.

Lemma patchEvent_unbind_absent_witness :
  patchEvent (host := Demo.late_host) new_element "onClick" None
    (Demo.start Demo.late_host [])
  = Normal ({| vei := Some (<["onClick" := None]> ∅); listeners := [];
               dom_calls := [RemoveCall "click" None None] |},
            Demo.start Demo.late_host []).
Proof.
  apply (proj1 (patchEvent_unbind_absent (host := Demo.late_host)
                  new_element "onClick" (Demo.start Demo.late_host [])
                  eq_refl eq_refl)).
Defined.

(** *** Wrapping objects in proxies *)

Section WrapFacts.
Import Reactive.

Lemma flag_key_inj (f g : Flags) : flag_key f = flag_key g -> f = g.
Proof. destruct f, g. unfold flag_key. simpl. congruence. Qed.

Lemma cache_ok_empty : cache_ok empty_store.
Proof.
  intros r k p H. unfold empty_store in H. simpl in H.
  by rewrite lookup_empty in H.
Qed.

Lemma cache_ok_alloc fields (st : Store) :
  cache_ok st -> cache_ok (alloc fields st).2.
Proof.
  intros Hok r k p Hp. destruct (Hok r k p Hp) as (f & Hk & Ho).
  exists f. split; [done|]. simpl. by apply lookup_app_l_Some.
Qed.

Lemma cache_ok_cached_or_new r f (st : Store) :
  cache_ok st -> cache_ok (cached_or_new r f st).2.
Proof.
  intros Hok. unfold cached_or_new.
  destruct (proxies st !! (r, flag_key f)) as [p|] eqn:E; [done|].
  intros r' k p Hp. simpl in *.
  destruct (decide ((r, flag_key f) = (r', k))) as [Heq|Hne].
  - injection Heq as <- <-. rewrite lookup_insert_eq in Hp.
    injection Hp as <-. exists f. split; [done|].
    by rewrite list_lookup_middle.
  - rewrite lookup_insert_ne in Hp by done.
    destruct (Hok r' k p Hp) as (g & Hk & Ho).
    exists g. split; [done|]. by apply lookup_app_l_Some.
Qed.

Lemma cache_ok_wrap v f (st : Store) : cache_ok st -> cache_ok (wrap v f st).2.
Proof.
  intros Hok. destruct v as [n|r]; simpl; [done|].
  destruct (objects st !! r) as [[fields|t g]|];
    try by apply cache_ok_cached_or_new.
  case_decide; [done|by apply cache_ok_cached_or_new].
Qed.

(** What [cached_or_new] returns is a proxy of the target with the
    flags, and it is in the cache from then on. *)
Lemma cached_or_new_proxy r f (st : Store) :
  cache_ok st ->
  exists p, cached_or_new r f st = (Obj p, (cached_or_new r f st).2) /\
    objects (cached_or_new r f st).2 !! p = Some (Proxy r f) /\
    proxies (cached_or_new r f st).2 !! (r, flag_key f) = Some p.
Proof.
  intros Hok. unfold cached_or_new.
  destruct (proxies st !! (r, flag_key f)) as [p|] eqn:E.
  - exists p. split; [done|]. split; [|done]. simpl.
    destruct (Hok r _ p E) as (g & Hk & Ho).
    by rewrite (flag_key_inj _ _ Hk) in Ho.
  - eexists. split; [done|]. simpl. split.
    + by rewrite list_lookup_middle.
    + by rewrite lookup_insert_eq.
Qed.

End WrapFacts.

(** C8: for a plain object [O] and each of the four wrapping variants,
    wrapping [O] gives a proxy, wrapping [O] again with the same flags
    gives that same proxy, and wrapping the proxy with the same flags gives
    it back: [wrap(O) === wrap(wrap(O))].  The cache invariant this rests
    on holds of the empty store and is kept by every wrap. *)
Theorem wrap_identity_stable (st : Reactive.Store) (o : nat)
    (fields : gmap string Reactive.Value) (f : Reactive.Flags) :
  Reactive.cache_ok st ->
  Reactive.objects st !! o = Some (Reactive.Plain fields) ->
  let w1 := Reactive.wrap (Reactive.Obj o) f st in
  let w2 := Reactive.wrap (Reactive.Obj o) f w1.2 in
  let ww := Reactive.wrap w1.1 f w1.2 in
  (exists p, w1.1 = Reactive.Obj p /\ p <> o /\
             Reactive.objects w1.2 !! p = Some (Reactive.Proxy o f)) /\
  w2.1 = w1.1 /\ w2.2 = w1.2 /\
  ww.1 = w1.1 /\ ww.2 = w1.2 /\
  Reactive.cache_ok w1.2 /\
  Reactive.cache_ok Reactive.empty_store /\
  (forall v g st', Reactive.cache_ok st' ->
                   Reactive.cache_ok (Reactive.wrap v g st').2).
Proof.
  intros Hok Ho w1 w2 ww.
  assert (w1 = Reactive.cached_or_new o f st) as Hw1.
  { unfold w1. simpl. by rewrite Ho. }
  destruct (cached_or_new_proxy o f st Hok) as (p & Hp & Hobj & Hcache).
  rewrite <- Hw1 in Hp, Hobj, Hcache.
  assert (Reactive.objects w1.2 !! o = Some (Reactive.Plain fields)) as Ho1.
  { rewrite Hw1. unfold Reactive.cached_or_new.
    destruct (Reactive.proxies st !! _); [done|].
    simpl. by apply lookup_app_l_Some. }
  assert (w1.1 = Reactive.Obj p) as H1 by (by rewrite Hp).
  split; [|split; [|split; [|split; [|split; [|split; [|split]]]]]].
  - exists p. split; [done|]. split; [|done].
    intros ->. rewrite Ho1 in Hobj. discriminate.
  - unfold w2. simpl. rewrite Ho1. unfold Reactive.cached_or_new.
    by rewrite Hcache, H1.
  - unfold w2. simpl. rewrite Ho1. unfold Reactive.cached_or_new.
    by rewrite Hcache.
  - unfold ww. rewrite H1. simpl. rewrite Hobj. by rewrite decide_True.
  - unfold ww. rewrite H1. simpl. rewrite Hobj. by rewrite decide_True.
  - rewrite Hw1. by apply cache_ok_cached_or_new.
  - apply cache_ok_empty.
  - intros v g st'. apply cache_ok_wrap.
Qed.

Lemma wrap_identity_stable_witness :
  let st := (Reactive.alloc ∅ Reactive.empty_store).2 in
  let w1 := Reactive.reactive (Reactive.Obj 0%nat) st in
  let ww := Reactive.reactive w1.1 w1.2 in
  ww.1 = w1.1 /\ ww.2 = w1.2.
Proof.
  intros st.
  pose proof (wrap_identity_stable st 0%nat ∅
                {| Reactive.flag_deep := true; Reactive.flag_readonly := false |}
                (cache_ok_alloc ∅ _ cache_ok_empty) eq_refl)
    as (_ & _ & _ & H1 & H2 & _).
  split; [exact H1|exact H2].
Defined.

(** ** Further properties of the event module *)

(** *** Event names, again *)

(** X1: [parseName] never looks at the two characters it skips: two raw
    names that differ only there parse alike; and a raw name of at most two
    characters parses to the converter's result on the empty string. *)
Theorem parseName_prefix_blind (hyph : string -> string) :
  (forall (a b a' b' : ascii) (s : string),
     parseName_with hyph (String a (String b s))
     = parseName_with hyph (String a' (String b' s))) /\
  (forall name : string,
     (String.length name <= 2)%nat ->
     parseName_with hyph name = (hyph "", None)).
Proof.
  split.
  - intros a b a' b' s. reflexivity.
  - intros name Hlen. destruct name as [|a [|b [|c name]]]; try reflexivity.
    simpl in Hlen. lia.
Qed.

Lemma parseName_prefix_blind_witness :
  parseName "on" = ("", None).
Proof.
  apply (proj2 (parseName_prefix_blind hyphenate) "on"). simpl. lia.
Defined.

(** *** The marker keys *)

(** X2: no two members of [ReactiveFlags] stand for the same string, no two
    members of [TrackOpTypes] do, and no flag string is a track-operation
    string. *)
Theorem enum_values_distinct :
  (forall f g, Constant.ReactiveFlags_value f = Constant.ReactiveFlags_value g ->
               f = g) /\
  (forall t u, Constant.TrackOpTypes_value t = Constant.TrackOpTypes_value u ->
               t = u) /\
  (forall f t, Constant.ReactiveFlags_value f <> Constant.TrackOpTypes_value t).
Proof.
  split; [|split].
  - intros [] []; simpl; intros H; try reflexivity; discriminate H.
  - intros [] []; simpl; intros H; try reflexivity; discriminate H.
  - intros [] []; simpl; discriminate.
Qed.

Lemma enum_values_distinct_witness :
  Constant.IS_REF = Constant.IS_REF.
Proof.
  apply (proj1 enum_values_distinct Constant.IS_REF Constant.IS_REF).
  reflexivity.
Defined.

(** *** Stop methods *)

Lemma call_stop_effect (s : StopImpl) (e : Event) :
  stop_immediate_flag (call_stop s e) = true /\
  _stopped (call_stop s e)
  = (match s with NativeStop => _stopped e | PatchedStop _ => true end) /\
  _vts (call_stop s e) = _vts e /\
  stopImmediatePropagation (call_stop s e) = stopImmediatePropagation e.
Proof.
  induction s as [|s IH]; simpl; [done|].
  destruct IH as (Hf & _ & Hv & Hm). by rewrite Hf, Hv, Hm.
Qed.

(** X3: however many times an event's stop method has been replaced (once
    per delivery to a list of handlers), calling it raises the platform's
    flag; it sets the private stopped mark exactly when the method has been
    replaced at least once (a mark already set stays set); and it touches
    neither the timestamp nor the method itself. *)
Theorem stop_method_any_depth (e : Event) :
  let e' := do_stopImmediatePropagation e in
  stop_immediate_flag e' = true /\
  (_stopped e' = true <->
     stopImmediatePropagation e <> NativeStop \/ _stopped e = true) /\
  _vts e' = _vts e /\
  stopImmediatePropagation e' = stopImmediatePropagation e /\
  (forall fs gs,
     stopImmediatePropagation
       (patchStopImmediatePropagation
          (patchStopImmediatePropagation e (Many fs)).1 (Many gs)).1
     = PatchedStop (PatchedStop (stopImmediatePropagation e))).
Proof.
  intros e'. unfold e', do_stopImmediatePropagation.
  destruct (call_stop_effect (stopImmediatePropagation e) e)
    as (Hf & Hs & Hv & Hm).
  split; [done|]. split; [|split; [done|split; [done|done]]].
  rewrite Hs. destruct (stopImmediatePropagation e); split.
  - by right.
  - by intros [?|?].
  - by left.
  - done.
Qed.

(** *** Lists of handlers, end to end *)

Section ListFacts.
Context {host : Host}.

Lemma call_each_app inst ty (s : Event * Runtime) (fs gs : list Func) :
  call_each inst ty s (fs ++ gs) = call_each inst ty (call_each inst ty s fs) gs.
Proof. unfold call_each. apply foldl_app. Qed.

Lemma call_each_cons inst ty (s : Event * Runtime) (f : Func) (fs : list Func) :
  call_each inst ty s (f :: fs)
  = call_each inst ty (callWithErrorHandling f inst ty s.1 s.2) fs.
Proof. reflexivity. Qed.

Lemma call_user_fn_event (h : Handler) inst ty (e : Event) (rt : Runtime) :
  (callWithErrorHandling (UserFn h) inst ty e rt).1
  = (state_of (behave h e (user rt))).1.
Proof.
  unfold callWithErrorHandling. simpl.
  by destruct (behave h e (user rt)) as [[e' u']|x [e' u']].
Qed.

(** Under [keeps_vts] no call changes the event's timestamp. *)
Lemma apply_func_vts (f : Func) (e : Event) (rt : Runtime) :
  keeps_vts -> _vts (state_of (apply_func f e rt)).1 = _vts e.
Proof.
  intros Hk. induction f as [h|fn IH]; simpl.
  - specialize (Hk h e (user rt)).
    by destruct (behave h e (user rt)) as [[e' u']|x [e' u']].
  - by destruct (_stopped e).
Qed.

Lemma callWithErrorHandling_vts f inst ty (e : Event) (rt : Runtime) :
  keeps_vts -> _vts (callWithErrorHandling f inst ty e rt).1 = _vts e.
Proof.
  intros Hk. unfold callWithErrorHandling.
  pose proof (apply_func_vts f e rt Hk) as H.
  by destruct (apply_func f e rt) as [[e' rt']|x [e' rt']].
Qed.

Lemma call_each_vts fs inst ty (s : Event * Runtime) :
  keeps_vts -> _vts (call_each inst ty s fs).1 = _vts s.1.
Proof.
  intros Hk. revert s. induction fs as [|f fs IH]; intros [e rt]; [done|].
  unfold call_each in *. simpl. rewrite IH.
  by apply callWithErrorHandling_vts.
Qed.

Lemma deliver_vts v inst (e : Event) (rt : Runtime) :
  keeps_vts -> _vts (state_of (deliver v inst e rt)).1 = _vts e.
Proof.
  intros Hk. destruct v as [f|fs].
  - rewrite deliver_single. simpl. by apply callWithErrorHandling_vts.
  - rewrite deliver_many. simpl. by rewrite call_each_vts.
Qed.

End ListFacts.

(** X4: in a list of handlers, once a handler leaves the event with its
    private stopped mark set (which is what calling the event's stop method
    does during such a delivery), no later handler of the list is entered:
    the handlers entered are those before it, as far as they ran, and
    itself.  In particular a first handler that calls the stop method is
    the only one entered. *)
Theorem stop_skips_rest {host : Host} (before : list Handler) (h : Handler)
    (after : list Handler) (inst : option ComponentInstance)
    (e : Event) (rt : Runtime) :
  let e1 := set_stopImmediatePropagation
              (PatchedStop (stopImmediatePropagation e)) e in
  let s1 := call_each inst NATIVE_EVENT_HANDLER (e1, rt)
              (map Guarded (UserFn <$> before)) in
  _stopped s1.1 = false ->
  _stopped (state_of (behave h s1.1 (user s1.2))).1 = true ->
  (exists s,
     deliver (Many (UserFn <$> (before ++ h :: after))) inst e rt = Normal s /\
     calls s.2 = calls s1.2 ++ [(h, s1.1)] /\
     s.1 = (state_of (behave h s1.1 (user s1.2))).1) /\
  _stopped (do_stopImmediatePropagation e1) = true.
Proof.
  intros e1 s1 Hrun Hstop. split; [|done].
  rewrite deliver_many. fold e1. eexists. split; [reflexivity|].
  rewrite fmap_app, map_app. simpl. rewrite call_each_app. fold s1.
  destruct s1 as [e2 rt2] eqn:Es1. cbn [fst snd] in *.
  rewrite call_each_cons. cbn [fst snd].
  rewrite call_guarded_running by done.
  pose proof (call_user_fn h inst NATIVE_EVENT_HANDLER e2 rt2) as Hc.
  pose proof (call_user_fn_event h inst NATIVE_EVENT_HANDLER e2 rt2) as He.
  destruct (callWithErrorHandling (UserFn h) inst NATIVE_EVENT_HANDLER e2 rt2)
    as [e3 rt3]. cbn [fst snd] in *.
  rewrite call_each_stopped by (rewrite He; exact Hstop).
  by split.
Qed.

Lemma stop_skips_rest_witness :
  exists s,
    deliver (host := Demo.late_host)
      (Many [UserFn 0%nat; UserFn 1%nat; UserFn 4%nat]) None
      Demo.fresh_event (Demo.start Demo.late_host []) = Normal s /\
    map fst (calls s.2) = [0%nat; 1%nat].
Proof.
  destruct (proj1 (stop_skips_rest (host := Demo.late_host)
              [0%nat] 1%nat [4%nat] None Demo.fresh_event
              (Demo.start Demo.late_host []) eq_refl eq_refl))
    as (s & Hs & Hc & _).
  exists s. split; [exact Hs|]. rewrite Hc. reflexivity.
Defined.

(** *** Firing, again *)

(** X6: when no user function writes the timestamp, the stamp an invoker
    puts on an unstamped event stays on it: after the call the event
    carries the clock reading, an event that came stamped keeps its stamp,
    and with a non-zero stamp the same event is then swallowed, unchanged,
    by every invoker attached later than that stamp. *)
Theorem stamp_stays {host : Host} (r : InvokerRef) (inv : Invoker)
    (e : Event) (rt : Runtime) :
  keeps_vts -> heap rt !! r = Some inv ->
  let s := state_of (invoker_call r e rt) in
  _vts s.1
  = (if vts_falsy e then Some (wall_clock (reads rt)) else _vts e) /\
  (forall r2 inv2 t,
     _vts s.1 = Some t -> t <> 0 ->
     heap rt !! r2 = Some inv2 -> t < attached inv2 ->
     invoker_call r2 s.1 s.2 = Normal s).
Proof.
  intros Hk Hr s.
  assert (_vts s.1
          = (if vts_falsy e then Some (wall_clock (reads rt)) else _vts e))
    as Hv.
  { unfold s, invoker_call. rewrite Hr. destruct (vts_falsy e).
    - simpl. by rewrite deliver_vts.
    - case_bool_decide; [done|]. by rewrite deliver_vts. }
  split; [exact Hv|].
  intros r2 inv2 t Ht Hz Hr2 Hlt.
  destruct (invoker_call_normal r e rt) as (s0 & Hs0 & _ & _ & Hh & _).
  assert (heap s.2 = heap rt) as Hh' by (unfold s; by rewrite Hs0).
  rewrite (invoker_call_stamped r2 inv2 s.1 s.2 t) by (by rewrite ?Hh').
  rewrite bool_decide_eq_true_2 by done. by destruct s.
Qed.

Lemma late_host_keeps_vts : keeps_vts (host := Demo.late_host).
Proof.
  intros h e u. simpl. unfold Demo.demo_behave.
  destruct h as [|[|[|[|h]]]]; simpl; try reflexivity.
  apply (call_stop_effect (stopImmediatePropagation e) e).
Qed.

Lemma stamp_stays_witness :
  let rt := Demo.with_invoker Demo.late_host [] (Single (UserFn 0%nat)) 5 in
  _vts (state_of (invoker_call 0%nat Demo.fresh_event rt)).1 = Some 1000.
Proof.
  intros rt.
  apply (proj1 (stamp_stays (host := Demo.late_host) 0%nat
                  {| value := Single (UserFn 0%nat); attached := 5;
                     instance := None |}
                  Demo.fresh_event rt late_host_keeps_vts eq_refl)).
Defined.

(** *** The tick clock, again *)

Section TickFacts.
Context {host : Host}.

Lemma getNow_clock_ok (rt : Runtime) : clock_ok rt -> clock_ok (getNow rt).2.
Proof.
  intros Hok. destruct (decide (cachedNow rt = 0)) as [Hz|Hz].
  - rewrite (getNow_uncached rt Hz). intros _. simpl.
    by destruct (microtasks rt).
  - by rewrite (getNow_cached rt Hz).
Qed.

Lemma createInvoker_clock_ok v inst (rt : Runtime) :
  clock_ok rt -> clock_ok (createInvoker v inst rt).2.
Proof.
  intros Hok. rewrite createInvoker_eq. simpl.
  exact (getNow_clock_ok rt Hok).
Qed.

Lemma run_step_clock_ok (rt : Runtime) (st : SyncStep) :
  clock_ok rt -> clock_ok (run_step rt st).
Proof.
  intros Hok. destruct st as [|v inst|el rawName nextValue|r e]; simpl.
  - exact Hok.
  - by apply createInvoker_clock_ok.
  - destruct (reads_inherited rt el rawName) eqn:Hinh.
    { destruct nextValue as [v|].
      - rewrite (patchEvent_inherited_bind_eq el rawName v rt Hinh). simpl.
        destruct (write_inherited_value_frame rawName v rt)
          as (H1 & H2 & _).
        unfold clock_ok. by rewrite H1, H2.
      - by rewrite (patchEvent_inherited_unbind_eq el rawName rt Hinh). }
    destruct nextValue as [v|];
      [|by rewrite (patchEvent_remove_eq el rawName rt Hinh)].
    destruct (slot (default ∅ (vei el)) rawName) as [r|] eqn:Hs.
    + by rewrite (patchEvent_update_eq el rawName r v rt Hs).
    + rewrite (patchEvent_create_eq el rawName v rt Hinh Hs). simpl.
      by apply createInvoker_clock_ok.
  - destruct (invoker_call_normal r e rt) as (s & -> & Hc & Hm & _).
    unfold clock_ok. simpl. by rewrite Hc, Hm.
Qed.

Lemma run_segment_clock_ok (steps : list SyncStep) (rt : Runtime) :
  clock_ok rt -> clock_ok (run_segment steps rt).
Proof.
  revert rt. induction steps as [|st steps IH]; intros rt Hok; [done|].
  simpl. apply IH. by apply run_step_clock_ok.
Qed.

Lemma flush_fold (q : list Microtask) (rt : Runtime) :
  foldl (fun acc m => run_microtask m acc) rt q
  = match q with [] => rt | _ :: _ => set_cachedNow 0 rt end.
Proof.
  revert rt. induction q as [|[] q IH]; intros rt; [done|].
  simpl. rewrite IH. by destruct q.
Qed.






End TickFacts.

(** X7: in every state reached through synchronous steps from one where
    the clock cache is sound (a cached timestamp has its reset queued, as
    in the initial state), running the queued microtasks empties the cache
    and the queue and leaves the store alone, so the next [getNow] reads
    the wall clock again: a timestamp never outlives its tick. *)
Theorem tick_boundary_resets {host : Host} (rt : Runtime)
    (steps : list SyncStep) :
  clock_ok rt ->
  let rt1 := run_segment steps rt in
  let rt2 := flush_microtasks rt1 in
  clock_ok rt1 /\
  cachedNow rt2 = 0 /\ microtasks rt2 = [] /\
  heap rt2 = heap rt1 /\ reads rt2 = reads rt1 /\
  (getNow rt2).1 = wall_clock (reads rt1) /\
  clock_ok rt2.
Proof.
  intros Hok rt1 rt2.
  assert (clock_ok rt1) as Hok1 by (by apply run_segment_clock_ok).
  assert (rt2 = set_cachedNow 0 (set_microtasks [] rt1)) as ->.
  { unfold rt2, flush_microtasks. rewrite flush_fold.
    destruct (microtasks rt1) eqn:Hq; [|done].
    destruct (decide (cachedNow rt1 = 0)) as [Hz|Hz].
    - unfold set_cachedNow, set_microtasks. simpl. by rewrite Hz.
    - by destruct (Hok1 Hz). }
  split; [done|]. simpl. repeat split; try done.
  intros H. by simpl in H.
Qed.

Lemma tick_boundary_resets_witness :
  let rt := Demo.start Demo.late_host [] in
  let rt1 := run_segment [StepCreateInvoker (Single (UserFn 0%nat)) None] rt in
  cachedNow rt1 = 1000 /\ cachedNow (flush_microtasks rt1) = 0.
Proof.
  intros rt rt1. split; [reflexivity|].
  refine (proj1 (proj2 (tick_boundary_resets (host := Demo.late_host) rt
            [StepCreateInvoker (Single (UserFn 0%nat)) None] _))).
  intros H. exfalso. apply H. reflexivity.
Defined.



(** *** The cache and the listeners of an element *)

Section ConsistencyFacts.
Context {host : Host}.

Lemma slot_empty rawName : slot ∅ rawName = None.
Proof. unfold slot. by rewrite lookup_empty. Qed.

Lemma slot_insert_ne (m : gmap string (option InvokerRef)) raw raw' o :
  raw <> raw' -> slot (<[raw := o]> m) raw' = slot m raw'.
Proof. intros Hne. unfold slot. by rewrite lookup_insert_ne. Qed.

Lemma cache_of_mk c ls dc :
  cache_of {| vei := Some c; listeners := ls; dom_calls := dc |} = c.
Proof. reflexivity. Qed.

Lemma consistent_new (rt : Runtime) : consistent new_element rt.
Proof.
  split; [constructor|]. split; [|split].
  - intros l Hl. by apply elem_of_nil in Hl.
  - intros raw r Hs. unfold cache_of in Hs. simpl in Hs.
    by rewrite slot_empty in Hs.
  - intros raw1 raw2 r Hs. unfold cache_of in Hs. simpl in Hs.
    by rewrite slot_empty in Hs.
Qed.

Lemma consistent_grow (el : Element) (rt rt' : Runtime) :
  consistent el rt -> (length (heap rt) <= length (heap rt'))%nat ->
  consistent el rt'.
Proof.
  intros (Hnd & Hl & Hc & Hi) Hlen. split; [done|]. split; [|by split].
  intros l Hin. destruct (Hl l Hin) as [Hlt Hraw]. split; [lia|done].
Qed.

Lemma consistent_set_vei (el : Element) (rt : Runtime) :
  consistent el rt -> consistent (set_vei (Some (cache_of el)) el) rt.
Proof. by intros H. Qed.

Lemma consistent_create (el : Element) rawName (rt rt' : Runtime) :
  consistent el rt -> slot (cache_of el) rawName = None ->
  length (heap rt') = S (length (heap rt)) ->
  let r := length (heap rt) in
  consistent
    {| vei := Some (<[rawName := Some r]> (cache_of el));
       listeners :=
         if decide (listener_for rawName r ∈ listeners el)
         then listeners el
         else listeners el ++ [listener_for rawName r];
       dom_calls := dom_calls el ++ [AddCall (parseName rawName).1 r None] |}
    rt'.
Proof.
  intros (Hnd & Hl & Hc & Hi) Hs Hlen r.
  assert (listener_for rawName r ∉ listeners el) as Hfresh.
  { intros Hin. destruct (Hl _ Hin) as [Hlt _]. simpl in Hlt. unfold r in Hlt.
    lia. }
  rewrite decide_False by done.
  unfold consistent, cache_of. simpl.
  split; [|split; [|split]].
  - apply NoDup_app. split; [done|]. split; [|apply NoDup_singleton].
    intros l Hin Hl1. apply list_elem_of_singleton in Hl1. by subst.
  - intros l Hin. apply elem_of_app in Hin as [Hin|Hin].
    + destruct (Hl l Hin) as [Hlt (raw & Hraw & Heq)]. split; [lia|].
      exists raw. split; [|done]. rewrite slot_insert_ne; [done|].
      intros <-. unfold cache_of in *. congruence.
    + apply list_elem_of_singleton in Hin as ->. simpl. split; [lia|].
      exists rawName. by rewrite slot_insert.
  - intros raw r' Hr'. apply elem_of_app.
    destruct (decide (rawName = raw)) as [<-|Hne].
    + rewrite slot_insert in Hr'. injection Hr' as <-. right.
      by apply list_elem_of_singleton.
    + rewrite slot_insert_ne in Hr' by done. left. by apply Hc.
  - intros raw1 raw2 r' H1 H2.
    assert (forall raw, rawName <> raw ->
              slot (default ∅ (vei el)) raw = Some r' -> r' <> r) as Hold.
    { intros raw Hne Hraw ->. destruct (Hl _ (Hc raw r Hraw)) as [Hlt _].
      simpl in Hlt. unfold r in Hlt. lia. }
    destruct (decide (rawName = raw1)) as [<-|Hne1],
             (decide (rawName = raw2)) as [<-|Hne2]; try done.
    + rewrite slot_insert in H1. injection H1 as <-.
      rewrite slot_insert_ne in H2 by done. by destruct (Hold raw2 Hne2 H2).
    + rewrite slot_insert in H2. injection H2 as <-.
      rewrite slot_insert_ne in H1 by done. by destruct (Hold raw1 Hne1 H1).
    + rewrite slot_insert_ne in H1, H2 by done. by eapply Hi.
Qed.

Lemma consistent_remove (el : Element) rawName (rt : Runtime) :
  consistent el rt ->
  consistent
    {| vei := Some (<[rawName := None]> (cache_of el));
       listeners :=
         match slot (cache_of el) rawName with
         | None => listeners el
         | Some r =>
             filter (fun l => l <> listener_for rawName r) (listeners el)
         end;
       dom_calls :=
         dom_calls el ++
         [RemoveCall (parseName rawName).1 (slot (cache_of el) rawName) None] |}
    rt.
Proof.
  intros (Hnd & Hl & Hc & Hi).
  assert (forall raw r', slot (<[rawName := None]> (cache_of el)) raw = Some r' ->
            rawName <> raw /\ slot (cache_of el) raw = Some r') as Hkept.
  { intros raw r' Hr'. destruct (decide (rawName = raw)) as [<-|Hne].
    - by rewrite slot_insert in Hr'.
    - by rewrite slot_insert_ne in Hr'. }
  destruct (slot (cache_of el) rawName) as [r|] eqn:Hs.
  - split; [by apply NoDup_filter|].
    split; [|split]; rewrite cache_of_mk; cbn [listeners].
    + intros l Hin. apply list_elem_of_filter in Hin as [Hne Hin].
      destruct (Hl l Hin) as [Hlt (raw & Hraw & Heq)]. split; [done|].
      exists raw. split; [|done]. rewrite slot_insert_ne; [done|].
      intros <-. apply Hne. rewrite Heq. congruence.
    + intros raw r' Hr'. destruct (Hkept raw r' Hr') as [Hne Hraw].
      apply list_elem_of_filter. split; [|by apply Hc].
      intros Heq. apply Hne. apply (Hi rawName raw r); [done|].
      injection Heq as _ ->. done.
    + intros raw1 raw2 r' H1 H2.
      destruct (Hkept _ _ H1) as [_ H1'], (Hkept _ _ H2) as [_ H2'].
      by eapply Hi.
  - split; [done|]. split; [|split]; rewrite cache_of_mk; cbn [listeners].
    + intros l Hin. destruct (Hl l Hin) as [Hlt (raw & Hraw & Heq)].
      split; [done|]. exists raw. split; [|done].
      rewrite slot_insert_ne; [done|]. intros <-. congruence.
    + intros raw r' Hr'. destruct (Hkept raw r' Hr') as [Hne Hraw].
      by apply Hc.
    + intros raw1 raw2 r' H1 H2.
      destruct (Hkept _ _ H1) as [_ H1'], (Hkept _ _ H2) as [_ H2'].
      by eapply Hi.
Qed.

Lemma createInvoker_length v inst (rt : Runtime) :
  length (heap (createInvoker v inst rt).2) = S (length (heap rt)).
Proof. rewrite createInvoker_eq. simpl. rewrite length_app. simpl. lia. Qed.

Lemma consistent_same (el el' : Element) (rt : Runtime) :
  cache_of el' = cache_of el -> listeners el' = listeners el ->
  consistent el rt -> consistent el' rt.
Proof. unfold consistent. by intros -> ->. Qed.

Lemma patchEvent_consistent (el : Element) rawName nextValue (rt : Runtime) :
  consistent el rt ->
  consistent (state_of (patchEvent el rawName nextValue rt)).1
             (state_of (patchEvent el rawName nextValue rt)).2.
Proof.
  intros Hok. destruct (reads_inherited rt el rawName) eqn:Hinh.
  { destruct nextValue as [v|].
    - rewrite (patchEvent_inherited_bind_eq el rawName v rt Hinh). simpl.
      apply (consistent_grow _ rt); [by apply consistent_set_vei|].
      by destruct (write_inherited_value_frame rawName v rt)
        as (_ & _ & _ & -> & _).
    - rewrite (patchEvent_inherited_unbind_eq el rawName rt Hinh). simpl.
      destruct (read_cache_inherited rt el rawName Hinh) as (_ & _ & Hs).
      unfold assign_undefined.
      destruct (bool_decide (rawName = "__proto__")
                && bool_decide (default ∅ (vei el) !! rawName = None)).
      + by apply (consistent_same el).
      + pose proof (consistent_remove el rawName rt Hok) as Hrm.
        fold (cache_of el) in Hs. rewrite Hs in Hrm.
        by apply (consistent_same _ _ rt eq_refl eq_refl Hrm). }
  destruct nextValue as [v|].
  - destruct (slot (default ∅ (vei el)) rawName) as [r|] eqn:Hs.
    + rewrite (patchEvent_update_eq el rawName r v rt Hs). simpl.
      apply (consistent_grow _ rt); [by apply consistent_set_vei|].
      simpl. by rewrite length_alter.
    + rewrite (patchEvent_create_eq el rawName v rt Hinh Hs). simpl.
      rewrite createInvoker_eq. simpl.
      apply (consistent_create el rawName rt); [done|done|].
      simpl. rewrite length_app. simpl. lia.
  - rewrite (patchEvent_remove_eq el rawName rt Hinh). simpl.
    by apply consistent_remove.
Qed.

End ConsistencyFacts.

(** X9: the cache and the listener list of an element stay in step.  A new
    element is consistent; every [patchEvent], whatever its arguments,
    takes a consistent element to a consistent one; so after any series of
    patches on a new element the listeners are pairwise different, each is
    the registration of a cached invoker, each cached invoker is
    registered, and no invoker sits under two raw names. *)
Theorem cache_and_listeners_agree {host : Host} (el : Element)
    (rawName : string) (nextValue : option EventValue) (rt : Runtime)
    (patches : list (string * option EventValue)) :
  (consistent el rt ->
   consistent (state_of (patchEvent el rawName nextValue rt)).1
              (state_of (patchEvent el rawName nextValue rt)).2) /\
  (let s := foldl (fun s p => state_of (patchEvent s.1 p.1 p.2 s.2))
                  (new_element, rt) patches in
   consistent s.1 s.2).
Proof.
  split; [apply patchEvent_consistent|].
  assert (forall s : Element * Runtime, consistent s.1 s.2 ->
            consistent
              (foldl (fun s p => state_of (patchEvent s.1 p.1 p.2 s.2)) s patches).1
              (foldl (fun s p => state_of (patchEvent s.1 p.1 p.2 s.2)) s patches).2)
    as Hall.
  { induction patches as [|p ps IH]; intros s Hs; [done|].
    simpl. apply IH. by apply patchEvent_consistent. }
  apply (Hall (new_element, rt)). apply consistent_new.
Qed.

Lemma cache_and_listeners_agree_witness :
  let rt := Demo.start Demo.late_host [] in
  consistent (state_of (patchEvent new_element "onClick"
                          (Some (Single (UserFn 0%nat))) rt)).1
             (state_of (patchEvent new_element "onClick"
                          (Some (Single (UserFn 0%nat))) rt)).2.
Proof.
  intros rt.
  apply (proj1 (cache_and_listeners_agree (host := Demo.late_host)
                  new_element "onClick" (Some (Single (UserFn 0%nat))) rt [])).
  apply consistent_new.
Defined.

Lemma filter_out_one {A} `{EqDecision A} (x : A) (l : list A) :
  NoDup l -> x ∈ l -> S (length (filter (fun y => y <> x) l)) = length l.
Proof.
  induction 1 as [|y l Hy Hnd IH]; intros Hin; [by apply elem_of_nil in Hin|].
  rewrite filter_cons. apply elem_of_cons in Hin as [<-|Hin].
  - rewrite decide_False by (intros H; by apply H). simpl. f_equal.
    clear IH Hnd. induction l as [|z l IH]; [done|].
    rewrite filter_cons, decide_True.
    + simpl. f_equal. apply IH. intros H. apply Hy. by right.
    + intros ->. apply Hy. by left.
  - rewrite decide_True by (intros ->; done). simpl. f_equal. by apply IH.
Qed.

(** X10: on a consistent element, unbinding a raw name removes exactly one
    listener, after which no listener of the element calls the unbound
    invoker, under any event type; the invokers cached under other raw
    names keep their slot and their listener, also when their raw name
    parses to the same event. *)
Theorem unbind_detaches_fully {host : Host} (el : Element)
    (rawName : string) (r : InvokerRef) (rt : Runtime) :
  consistent el rt -> slot (cache_of el) rawName = Some r ->
  let el' := (state_of (patchEvent el rawName None rt)).1 in
  S (length (listeners el')) = length (listeners el) /\
  (forall l, l ∈ listeners el' -> l_callback l <> r) /\
  (forall raw2 r2,
     raw2 <> rawName -> slot (cache_of el) raw2 = Some r2 ->
     slot (cache_of el') raw2 = Some r2 /\
     listener_for raw2 r2 ∈ listeners el').
Proof.
  intros Hok Hs el'. unfold el'.
  rewrite (patchEvent_remove_eq el rawName rt
             (reads_inherited_slot rt el rawName r Hs)).
  cbn [state_of fst listeners]. rewrite cache_of_mk.
  fold (cache_of el). rewrite Hs.
  destruct Hok as (Hnd & Hl & Hc & Hi).
  split; [|split].
  - apply filter_out_one; [done|by apply Hc].
  - intros l Hin Hcb. apply list_elem_of_filter in Hin as [Hne Hin].
    destruct (Hl l Hin) as [_ (raw & Hraw & Heq)]. apply Hne.
    rewrite Hcb in Hraw, Heq. by rewrite Heq, (Hi raw rawName r Hraw Hs).
  - intros raw2 r2 Hne H2. split.
    + by rewrite slot_insert_ne.
    + apply list_elem_of_filter. split; [|by apply Hc].
      intros Heq. apply Hne. apply (Hi raw2 rawName r2); [done|].
      injection Heq as _ ->. done.
Qed.

Lemma unbind_detaches_fully_witness :
  let host := Demo.late_host in
  let s1 := state_of (patchEvent new_element "onClick"
                        (Some (Single (UserFn 0%nat)))
                        (Demo.start host [])) in
  let s2 := state_of (patchEvent s1.1 "on:click"
                        (Some (Single (UserFn 4%nat))) s1.2) in
  listener_for "on:click" 1%nat
    ∈ listeners (state_of (patchEvent s2.1 "onClick" None s2.2)).1.
Proof.
  intros host s1 s2.
  refine (proj2 (proj2 (proj2 (unbind_detaches_fully (host := host) s2.1
            "onClick" 0%nat s2.2 _ eq_refl)) "on:click" 1%nat _ eq_refl)).
  - unfold s2, s1.
    apply patchEvent_consistent, patchEvent_consistent, consistent_new.
  - discriminate.
Defined.

(** *** Patching, again *)

Lemma set_value_twice (v : EventValue) (l : list Invoker) (r : nat) :
  alter (set_value v) r (alter (set_value v) r l) = alter (set_value v) r l.
Proof.
  rewrite list_alter_alter_eq. by apply list_alter_ext.
Qed.

Lemma set_heap_same {host : Host} (rt : Runtime) : set_heap (heap rt) rt = rt.
Proof. by destruct rt. Qed.

(** X11: binding the same non-empty value a second time changes nothing at
    all: the second [patchEvent] returns the very element and runtime the
    first one produced (no listener-method call, no new invoker, same
    attached time). *)
Theorem patchEvent_same_value_twice {host : Host} (el : Element)
    (rawName : string) (v : EventValue) (rt : Runtime) :
  let s1 := state_of (patchEvent el rawName (Some v) rt) in
  patchEvent s1.1 rawName (Some v) s1.2 = Normal s1.
Proof.
  intros s1. unfold s1.
  destruct (reads_inherited rt el rawName) eqn:Hinh.
  { rewrite (patchEvent_inherited_bind_eq el rawName v rt Hinh).
    cbn [state_of fst snd].
    rewrite patchEvent_inherited_bind_eq.
    - cbn [vei set_vei default from_option id]. do 2 f_equal.
      unfold write_inherited_value.
      by destruct (bool_decide (rawName = "__proto__")).
    - revert Hinh. unfold reads_inherited, inherits, write_inherited_value.
      cbn [vei set_vei default from_option id].
      destruct (bool_decide (rawName = "__proto__")) eqn:Hp; [|done].
      apply bool_decide_eq_true in Hp as ->. intros H.
      apply andb_true_iff in H as [-> _]. done. }
  destruct (slot (default ∅ (vei el)) rawName) as [r|] eqn:Hs.
  - rewrite (patchEvent_update_eq el rawName r v rt Hs).
    cbn [state_of fst snd].
    rewrite (patchEvent_update_eq _ rawName r v) by exact Hs.
    cbn [vei set_vei default from_option id heap set_heap].
    by rewrite set_value_twice.
  - rewrite (patchEvent_create_eq el rawName v rt Hinh Hs).
    cbn [state_of fst snd]. rewrite createInvoker_eq. cbn [fst snd].
    rewrite (patchEvent_update_eq _ rawName (length (heap rt)) v)
      by apply slot_insert.
    cbn [vei set_vei default from_option id heap set_heap listeners dom_calls].
    do 2 f_equal. unfold set_heap at 1. cbn [heap].
    replace (alter (set_value v) (length (heap rt)) _)
      with (heap rt ++ [{| value := v; attached := (getNow rt).1;
                           instance := None |}]); [done|].
    symmetry. apply list_eq. intros i.
    rewrite list_lookup_alter. case_decide; [subst|done].
    by rewrite list_lookup_middle.
Qed.

(** X12: what [patchEvent] leaves alone.  The slots of all other raw names
    are as before; every invoker in the store other than the one cached
    under the raw name is as before, and no attached time changes; no
    handler is entered, no error reported, the application state is
    untouched; and the wall clock is read at most once. *)
Theorem patchEvent_frame {host : Host} (el : Element) (rawName : string)
    (nextValue : option EventValue) (rt : Runtime) :
  let s := state_of (patchEvent el rawName nextValue rt) in
  (forall raw', raw' <> rawName ->
     slot (cache_of s.1) raw' = slot (cache_of el) raw') /\
  (forall r' inv, heap rt !! r' = Some inv ->
     slot (cache_of el) rawName <> Some r' -> heap s.2 !! r' = Some inv) /\
  keeps_attached (heap rt) (heap s.2) /\
  calls s.2 = calls rt /\ user s.2 = user rt /\ reported s.2 = reported rt /\
  (reads rt <= reads s.2 <= S (reads rt))%nat.
Proof.
  intros s. unfold s.
  assert (forall v inst,
            let c := createInvoker v inst rt in
            calls c.2 = calls rt /\ user c.2 = user rt /\
            reported c.2 = reported rt /\
            (reads rt <= reads c.2 <= S (reads rt))%nat) as Hcr.
  { intros v inst c. unfold c. rewrite createInvoker_eq. simpl.
    destruct (getNow_records rt) as (-> & -> & ->). repeat split.
    - unfold getNow. destruct (negb (cachedNow rt =? 0)); simpl; lia.
    - unfold getNow. destruct (negb (cachedNow rt =? 0)); simpl; lia. }
  destruct (reads_inherited rt el rawName) eqn:Hinh.
  { destruct nextValue as [v|].
    - rewrite (patchEvent_inherited_bind_eq el rawName v rt Hinh).
      cbn [state_of fst snd].
      destruct (write_inherited_value_frame rawName v rt)
        as (_ & _ & -> & -> & -> & -> & ->).
      split; [done|]. split; [done|]. split; [apply keeps_attached_refl|].
      repeat split; lia.
    - rewrite (patchEvent_inherited_unbind_eq el rawName rt Hinh).
      cbn [state_of fst snd]. rewrite cache_of_mk.
      split.
      + intros raw' Hne. unfold assign_undefined.
        destruct (_ && _); [done|by rewrite slot_insert_ne].
      + split; [done|]. split; [apply keeps_attached_refl|].
        repeat split; lia. }
  destruct nextValue as [v|].
  - destruct (slot (default ∅ (vei el)) rawName) as [r|] eqn:Hs.
    + rewrite (patchEvent_update_eq el rawName r v rt Hs).
      cbn [state_of fst snd]. unfold cache_of at 1. simpl.
      split; [done|]. split; [|split; [apply keeps_attached_alter|]].
      * intros r' inv Hr' Hne. rewrite list_lookup_alter_ne; [done|].
        intros ->. apply Hne. exact Hs.
      * repeat split; lia.
    + rewrite (patchEvent_create_eq el rawName v rt Hinh Hs).
      cbn [state_of fst snd]. rewrite cache_of_mk.
      split; [intros raw' Hne; by rewrite slot_insert_ne|].
      destruct (Hcr v None) as (Hc1 & Hc2 & Hc3 & Hc4).
      split; [|split; [|done]].
      * intros r' inv Hr' _. rewrite createInvoker_eq. simpl.
        by apply lookup_app_l_Some.
      * rewrite createInvoker_eq. simpl. apply keeps_attached_app.
  - rewrite (patchEvent_remove_eq el rawName rt Hinh).
    cbn [state_of fst snd]. rewrite cache_of_mk.
    split; [intros raw' Hne; by rewrite slot_insert_ne|].
    split; [done|]. split; [apply keeps_attached_refl|].
    repeat split; lia.
Qed.

Lemma patchEvent_frame_witness :
  let host := Demo.late_host in
  let rt := Demo.with_invoker host [] (Single (UserFn 0%nat)) 5 in
  heap (state_of (patchEvent new_element "onClick"
                    (Some (Single (UserFn 4%nat))) rt)).2 !! 0%nat
  = Some {| value := Single (UserFn 0%nat); attached := 5; instance := None |}.
Proof.
  intros host rt.
  apply (proj1 (proj2 (patchEvent_frame (host := host) new_element "onClick"
                         (Some (Single (UserFn 4%nat))) rt))).
  - reflexivity.
  - discriminate.
Defined.

(** X13: [patchEvent] makes at most one listener-method call, always with
    [undefined] options, and none at all when it updates a cached invoker;
    whatever the raw name says (a modifier suffix, say), every listener it
    adds is a non-capturing one for the parsed event name. *)
Theorem patchEvent_never_captures {host : Host} (el : Element)
    (rawName : string) (nextValue : option EventValue) (rt : Runtime) :
  let el' := (state_of (patchEvent el rawName nextValue rt)).1 in
  (exists c, dom_calls el' = dom_calls el ++ c /\ (length c <= 1)%nat /\
             Forall (fun call => call_options call = None) c /\
             (is_Some (slot (cache_of el) rawName) -> is_Some nextValue ->
              c = [])) /\
  (forall l, l ∈ listeners el' ->
     l ∈ listeners el \/
     (l = listener_for rawName (length (heap rt)) /\
      l_capture l = false /\ l_type l = (parseName rawName).1)).
Proof.
  intros el'. unfold el'.
  destruct (reads_inherited rt el rawName) eqn:Hinh.
  { destruct nextValue as [v|].
    - rewrite (patchEvent_inherited_bind_eq el rawName v rt Hinh). simpl.
      split; [|by left]. exists []. rewrite app_nil_r.
      split; [done|]. split; [simpl; lia|]. split; [constructor|done].
    - rewrite (patchEvent_inherited_unbind_eq el rawName rt Hinh).
      cbn [state_of fst dom_calls listeners].
      destruct (read_cache_inherited rt el rawName Hinh) as (_ & _ & Hs).
      split; [|by left].
      eexists. split; [reflexivity|]. split; [simpl; lia|].
      split; [by repeat constructor|]. by intros _ [? ?]. }
  destruct nextValue as [v|].
  - destruct (slot (default ∅ (vei el)) rawName) as [r|] eqn:Hs.
    + rewrite (patchEvent_update_eq el rawName r v rt Hs). simpl.
      split; [|by left]. exists []. rewrite app_nil_r.
      split; [done|]. split; [simpl; lia|]. split; [constructor|done].
    + rewrite (patchEvent_create_eq el rawName v rt Hinh Hs).
      cbn [state_of fst dom_calls listeners]. rewrite createInvoker_eq.
      cbn [fst]. split.
      * eexists. split; [reflexivity|]. split; [simpl; lia|].
        split; [by repeat constructor|].
        unfold cache_of. rewrite Hs. by intros [? ?].
      * intros l Hin. case_decide; [by left|].
        apply elem_of_app in Hin as [Hin|Hin]; [by left|].
        apply list_elem_of_singleton in Hin as ->. by right.
  - rewrite (patchEvent_remove_eq el rawName rt Hinh).
    cbn [state_of fst dom_calls listeners].
    split.
    + eexists. split; [reflexivity|]. split; [simpl; lia|].
      split; [by repeat constructor|]. by intros _ [? ?].
    + intros l Hin. left.
      destruct (slot (default ∅ (vei el)) rawName); [|done].
      by apply list_elem_of_filter in Hin as [_ Hin].
Qed.

Lemma patchEvent_never_captures_witness :
  listeners (state_of (patchEvent (host := Demo.late_host) new_element
                         "onClickCapture" (Some (Single (UserFn 0%nat)))
                         (Demo.start Demo.late_host []))).1
  = [{| l_type := "click-capture"; l_callback := 0%nat; l_capture := false |}]
  /\ (forall l,
        l ∈ listeners (state_of (patchEvent (host := Demo.late_host)
                         new_element "onClickCapture"
                         (Some (Single (UserFn 0%nat)))
                         (Demo.start Demo.late_host []))).1 ->
        l ∈ listeners new_element \/
        (l = listener_for "onClickCapture" 0%nat /\
         l_capture l = false /\ l_type l = "click-capture")).
Proof.
  split; [reflexivity|].
  exact (proj2 (patchEvent_never_captures (host := Demo.late_host)
                  new_element "onClickCapture"
                  (Some (Single (UserFn 0%nat)))
                  (Demo.start Demo.late_host []))).
Defined.

(** X14: unbinding and then binding again does not bring the old invoker
    back: on a consistent element the new binding gets a new invoker with
    its own attached time, registered by one [removeEventListener] and one
    [addEventListener] call; the old invoker stays in the store as it was,
    and no listener of the element calls it. *)
Theorem rebind_is_fresh {host : Host} (el : Element) (rawName : string)
    (r : InvokerRef) (v : EventValue) (rt : Runtime) :
  consistent el rt -> slot (cache_of el) rawName = Some r ->
  let s1 := state_of (patchEvent el rawName None rt) in
  let s2 := state_of (patchEvent s1.1 rawName (Some v) s1.2) in
  let r' := length (heap rt) in
  slot (cache_of s2.1) rawName = Some r' /\ r' <> r /\
  heap s2.2 !! r = heap rt !! r /\
  value_at s2.2 r' = Some v /\
  attached_at s2.2 r' = Some (getNow rt).1 /\
  listener_for rawName r' ∈ listeners s2.1 /\
  (forall l, l ∈ listeners s2.1 -> l_callback l <> r) /\
  dom_calls s2.1
  = dom_calls el ++ [RemoveCall (parseName rawName).1 (Some r) None;
                     AddCall (parseName rawName).1 r' None].
Proof.
  intros Hok Hs s1 s2 r'.
  assert (r < length (heap rt))%nat as Hlt.
  { destruct Hok as (_ & Hl & Hc & _).
    by destruct (Hl _ (Hc rawName r Hs)) as [Hlt _]. }
  assert (consistent s1.1 s1.2) as Hok1 by (by apply patchEvent_consistent).
  pose proof (reads_inherited_slot rt el rawName r Hs) as Hplain.
  assert (forall l, l ∈ listeners s1.1 -> l_callback l <> r) as Hgone.
  { intros l Hin Hcb. unfold s1 in Hin.
    rewrite (patchEvent_remove_eq el rawName rt Hplain) in Hin.
    cbn [state_of fst listeners] in Hin. fold (cache_of el) in Hin.
    rewrite Hs in Hin. apply list_elem_of_filter in Hin as [Hne Hin].
    destruct Hok as (_ & Hl & _ & Hi).
    destruct (Hl l Hin) as [_ (raw & Hraw & Heq)]. apply Hne.
    rewrite Hcb in Hraw, Heq. by rewrite Heq, (Hi raw rawName r Hraw Hs). }
  assert (s1 = ({| vei := Some (<[rawName := None]> (cache_of el));
                   listeners := filter (fun l => l <> listener_for rawName r)
                                       (listeners el);
                   dom_calls := dom_calls el ++
                     [RemoveCall (parseName rawName).1 (Some r) None] |}, rt))
    as Hs1.
  { unfold s1. rewrite (patchEvent_remove_eq el rawName rt Hplain).
    fold (cache_of el). by rewrite Hs. }
  unfold s2. rewrite Hs1 in *. cbn [fst snd] in *.
  rewrite patchEvent_create_eq;
    [|apply reads_inherited_own; cbn [vei default from_option id];
      by rewrite lookup_insert_eq
     |cbn [vei default from_option id]; apply slot_insert].
  cbn [state_of fst snd vei listeners dom_calls default from_option id].
  rewrite createInvoker_eq. cbn [fst snd]. rewrite cache_of_mk.
  fold r'. unfold value_at, attached_at. cbn [heap set_heap].
  rewrite decide_False.
  2:{ intros Hin. apply list_elem_of_filter in Hin as [_ Hin].
      destruct Hok as (_ & Hl & _). destruct (Hl _ Hin) as [Hlt' _].
      simpl in Hlt'. unfold r' in Hlt'. lia. }
  split; [apply slot_insert|]. split; [unfold r'; lia|].
  split; [by rewrite lookup_app_l by done|].
  split; [by rewrite list_lookup_middle|].
  split; [by rewrite list_lookup_middle|].
  split; [apply elem_of_app; right; by apply list_elem_of_singleton|].
  split; [|by rewrite <- app_assoc].
  intros l Hin. apply elem_of_app in Hin as [Hin|Hin]; [by apply Hgone|].
  apply list_elem_of_singleton in Hin as ->. simpl. unfold r'. lia.
Qed.

Lemma rebind_is_fresh_witness :
  let host := Demo.late_host in
  let s0 := state_of (patchEvent new_element "onClick"
                        (Some (Single (UserFn 0%nat)))
                        (Demo.start host [])) in
  let s1 := state_of (patchEvent s0.1 "onClick" None s0.2) in
  let s2 := state_of (patchEvent s1.1 "onClick"
                        (Some (Single (UserFn 4%nat))) s1.2) in
  slot (cache_of s2.1) "onClick" = Some 1%nat.
Proof.
  intros host s0.
  refine (proj1 (rebind_is_fresh (host := host) s0.1 "onClick" 0%nat
                   (Single (UserFn 4%nat)) s0.2 _ eq_refl)).
  unfold s0. apply patchEvent_consistent, consistent_new.
Defined.

(** X15: what a newly created invoker does with an event that already
    carries a non-zero stamp [t] is decided by the tick clock alone: if a
    timestamp is cached, the event is swallowed when [t] is earlier than the
    cached timestamp and delivered otherwise, even though the invoker was
    created after the event was stamped; if nothing is cached, the event is
    swallowed when [t] is earlier than the clock's next reading and
    delivered otherwise. *)
Theorem new_invoker_and_stamped_event {host : Host} (v : EventValue)
    (inst : option ComponentInstance) (e : Event) (t : Z) (rt : Runtime) :
  _vts e = Some t -> t <> 0 ->
  let c := createInvoker v inst rt in
  let limit := if bool_decide (cachedNow rt = 0)
               then wall_clock (reads rt) else cachedNow rt in
  attached_at c.2 c.1 = Some limit /\
  (t < limit -> invoker_call c.1 e c.2 = Normal (e, c.2)) /\
  (limit <= t -> invoker_call c.1 e c.2 = deliver v inst e c.2).
Proof.
  intros Ht Hz c limit.
  assert ((getNow rt).1 = limit) as Hnow.
  { unfold limit. case_bool_decide as Hc.
    - by rewrite (getNow_uncached rt Hc).
    - by rewrite (getNow_cached rt Hc). }
  assert (heap c.2 !! c.1
          = Some {| value := v; attached := limit; instance := inst |}) as Hc.
  { unfold c. rewrite createInvoker_eq. simpl.
    by rewrite list_lookup_middle, Hnow. }
  split; [unfold attached_at; by rewrite Hc|].
  split; intros Hcmp; rewrite (invoker_call_stamped _ _ e c.2 t Hc Ht Hz);
    simpl.
  - by rewrite bool_decide_eq_true_2.
  - rewrite bool_decide_eq_false_2; [done|lia].
Qed.

Lemma new_invoker_and_stamped_event_witness :
  let host := Demo.late_host in
  let rt := set_cachedNow 1000 (Demo.start host []) in
  let e := set_vts (Some 1005) Demo.fresh_event in
  let c := createInvoker (Single (UserFn 0%nat)) None rt in
  invoker_call c.1 e c.2 = deliver (Single (UserFn 0%nat)) None e c.2.
Proof.
  intros host rt e.
  refine (proj2 (proj2 (new_invoker_and_stamped_event (host := host)
            (Single (UserFn 0%nat)) None e 1005 rt eq_refl _)) _).
  - discriminate.
  - vm_compute. discriminate.
Defined.

(** X18: binding a handler under the raw name "__proto__" on an element
    that has no own entry for it registers nothing and writes the handler
    to [Object.prototype.value]; from then on the raw name "value" reads as
    inherited on every cache object without an own entry for it, so
    binding a handler under "value" registers nothing either. *)
Theorem proto_bind_pollutes {host : Host} (el el2 : Element)
    (v w : EventValue) (rt : Runtime) :
  default ∅ (vei el) !! "__proto__" = None ->
  default ∅ (vei el2) !! "value" = None ->
  let s1 := state_of (patchEvent el "__proto__" (Some v) rt) in
  let s2 := state_of (patchEvent el2 "value" (Some w) s1.2) in
  prototype_value s1.2 = Some v /\
  dom_calls s1.1 = dom_calls el /\ listeners s1.1 = listeners el /\
  heap s1.2 = heap rt /\
  read_cache s1.2 (default ∅ (vei el2)) "value" = ReadInherited "value" /\
  dom_calls s2.1 = dom_calls el2 /\ listeners s2.1 = listeners el2 /\
  heap s2.2 = heap rt /\ prototype_value s2.2 = Some v.
Proof.
  intros Hn Hn2 s1 s2.
  assert (reads_inherited rt el "__proto__" = true) as Hinh.
  { apply reads_inherited_key; [|done].
    unfold object_prototype_keys. set_solver. }
  assert (s1 = (set_vei (Some (default ∅ (vei el))) el,
                set_prototype_value (Some v) rt)) as Hs1.
  { unfold s1.
    by rewrite (patchEvent_inherited_bind_eq el "__proto__" v rt Hinh). }
  assert (reads_inherited s1.2 el2 "value" = true) as Hinh2.
  { rewrite Hs1. unfold reads_inherited, inherits. simpl.
    by rewrite (bool_decide_eq_true_2 _ Hn2). }
  assert (s2 = (set_vei (Some (default ∅ (vei el2))) el2, s1.2)) as Hs2.
  { unfold s2.
    by rewrite (patchEvent_inherited_bind_eq el2 "value" w s1.2 Hinh2). }
  split; [by rewrite Hs1|]. split; [by rewrite Hs1|].
  split; [by rewrite Hs1|]. split; [by rewrite Hs1|].
  split; [exact (proj1 (read_cache_inherited s1.2 el2 "value" Hinh2))|].
  rewrite Hs2, Hs1. by repeat split.
Qed.

Lemma proto_bind_pollutes_witness :
  let host := Demo.late_host in
  let s1 := state_of (patchEvent new_element "__proto__"
                        (Some (Single (UserFn 0%nat)))
                        (Demo.start host [])) in
  let s2 := state_of (patchEvent new_element "value"
                        (Some (Single (UserFn 4%nat))) s1.2) in
  prototype_value s1.2 = Some (Single (UserFn 0%nat)) /\
  dom_calls s2.1 = [] /\ listeners s2.1 = [].
Proof.
  intros host.
  destruct (proto_bind_pollutes (host := host) new_element new_element
              (Single (UserFn 0%nat)) (Single (UserFn 4%nat))
              (Demo.start host []) eq_refl eq_refl)
    as (H1 & _ & _ & _ & _ & H2 & H3 & _).
  split; [exact H1|]. split; [exact H2|exact H3].
Defined.
